(** * Event-to-alert arbitration: [selfdrive/controls/lib/events.py]

    A shallow embedding of the [Events] collector, the [Alert] descriptor and
    the [EVENTS] catalog, followed by the properties of the engine.

    Modelling conventions.
    - An event identifier is the raw ordinal of the capnp enum
      [car.CarEvent.EventName]; ordinals are unsigned, hence [N].
    - Python [int] counters are [Z]; Python [float] durations are modelled by
      exact rationals [Q] (the comparison of [create_alerts] is the only
      arithmetic performed on them).
    - Python dictionaries are [gmap]s, Python lists are [list]s.
    - [EVENTS] holds mutable [Alert] objects and [create_alerts] writes to
      them, so the catalog is a store threaded through [create_alerts]; the
      returned list holds references into that store. *)

From Stdlib Require Import QArith Qround.
From Stdlib Require Import PrimFloat Uint63.
From stdpp Require Import gmap strings list fin_maps.

Set Warnings "-inexact-float".

Local Open Scope Z_scope.

(** ** Enumerations *)

(** [class Priority(IntEnum)] *)
Inductive Priority := LOWEST | LOWER | LOW | MID | HIGH | HIGHEST.

Definition Priority_value (p : Priority) : Z :=
  match p with
  | LOWEST => 0 | LOWER => 1 | LOW => 2 | MID => 3 | HIGH => 4 | HIGHEST => 5
  end.

(** [class ET]: the event types are plain strings. *)
Module ET.
Definition ENABLE : string := "enable".
Definition PRE_ENABLE : string := "preEnable".
Definition NO_ENTRY : string := "noEntry".
Definition WARNING : string := "warning".
Definition USER_DISABLE : string := "userDisable".
Definition SOFT_DISABLE : string := "softDisable".
Definition IMMEDIATE_DISABLE : string := "immediateDisable".
Definition PERMANENT : string := "permanent".
End ET.

(** The capnp enumerations used by the alerts; they are declared in
    [cereal], only the enumerants this file mentions are listed. *)
Inductive AlertStatus := normal | userPrompt | critical.
Inductive AlertSize := size_none | small | mid | full.
Inductive VisualAlert :=
  | visual_none | fcw | steerRequired | brakePressed.
Inductive AudibleAlert :=
  | audible_none | chimeEngage | chimeDisengage | chimeError | chimeWarning1
  | chimeWarning2Repeat | chimeWarningRepeat | chimePrompt
  | chimeSlowingDownSpeed.

(** ** Exceptions *)

Inductive exn := KeyError | TypeError | AttributeError.

(** A computation that either raises or returns. *)
Abbreviation result A := (exn + A)%type (only parsing).

(** ** [class Alert] *)

Record Alert := mkAlert {
  alert_text_1 : string;
  alert_text_2 : string;
  alert_status : AlertStatus;
  alert_size : AlertSize;
  alert_priority : Priority;
  visual_alert : VisualAlert;
  audible_alert : AudibleAlert;
  duration_sound : Q;
  duration_hud_alert : Q;
  duration_text : Q;
  alert_rate : Q;
  creation_delay : Q;
  start_time : Q;
  alert_type : string;
  event_type : option string
}.

(** [Alert.__init__]; [alert_rate] and [creation_delay] default to [0.] at
    the call sites that omit them. *)
Definition Alert_init (text_1 text_2 : string) (status : AlertStatus)
    (size : AlertSize) (priority : Priority) (visual : VisualAlert)
    (audible : AudibleAlert) (d_sound d_hud d_text : Q)
    (rate delay : Q) : Alert :=
  {| alert_text_1 := text_1; alert_text_2 := text_2;
     alert_status := status; alert_size := size;
     alert_priority := priority; visual_alert := visual;
     audible_alert := audible;
     duration_sound := d_sound; duration_hud_alert := d_hud;
     duration_text := d_text;
     alert_rate := rate; creation_delay := delay;
     start_time := 0; alert_type := ""; event_type := None |}.

(** [Alert.__gt__] *)
Definition Alert_gt (a1 a2 : Alert) : bool :=
  Priority_value (alert_priority a2) <? Priority_value (alert_priority a1).

(** The two attribute writes of [create_alerts]:
    [alert.alert_type = ...; alert.event_type = et]. *)
Definition stamp (ty : string) (et : string) (a : Alert) : Alert :=
  {| alert_text_1 := alert_text_1 a; alert_text_2 := alert_text_2 a;
     alert_status := alert_status a; alert_size := alert_size a;
     alert_priority := alert_priority a; visual_alert := visual_alert a;
     audible_alert := audible_alert a;
     duration_sound := duration_sound a;
     duration_hud_alert := duration_hud_alert a;
     duration_text := duration_text a;
     alert_rate := alert_rate a; creation_delay := creation_delay a;
     start_time := start_time a; alert_type := ty; event_type := Some et |}.

(** ** Callback arguments

    The alert callbacks take [(CP, sm, metric)]; [create_alerts] applies a
    callback to [*callback_args], so a list of the wrong shape raises
    [TypeError].  [car.CarParams] and [messaging.SubMaster] are external;
    only the field read by the callback embedded below is kept. *)
Record CarParams := { carName : string }.

Inductive PyArg :=
  | PyCarParams (CP : CarParams)
  | PySubMaster
  | PyBool (b : bool).

(** ** The catalog [EVENTS]

    [Dict[int, Dict[str, Union[Alert, Callable[..., Alert]]]]] *)
Inductive entry :=
  | Static (a : Alert)
  | Callback (f : list PyArg → result Alert).

Abbreviation Catalog := (gmap N (gmap string entry)) (only parsing).

(** ** [class Events] *)

Record Events := mkEvents {
  events : list N;
  static_events : list N;
  events_prev : gmap N Z
}.

(** [Events.__init__]: [dict.fromkeys(EVENTS.keys(), 0)] *)
Definition Events_init (EVENTS : Catalog) : Events :=
  {| events := []; static_events := [];
     events_prev := (λ _, 0) <$> EVENTS |}.

(** [Events.names] *)
Definition names (s : Events) : list N := events s.

(** [Events.__len__] *)
Definition len (s : Events) : nat := length (events s).

(** [Events.add] *)
Definition add (event_name : N) (static : bool) (s : Events) : Events :=
  {| events := events s ++ [event_name];
     static_events :=
       if static then static_events s ++ [event_name] else static_events s;
     events_prev := events_prev s |}.

(** [Events.clear] *)
Definition clear (s : Events) : Events :=
  {| events := static_events s;
     static_events := static_events s;
     events_prev :=
       map_imap (λ k v, Some (if bool_decide (k ∈ events s) then v + 1 else 0))
                (events_prev s) |}.

(** [EVENTS.get(e, {})] *)
Definition get_types (EVENTS : Catalog) (e : N) : gmap string entry :=
  default ∅ (EVENTS !! e).

(** [Events.any]: the loop returns at the first event that has the type. *)
Fixpoint any_loop (EVENTS : Catalog) (event_type : string) (es : list N)
    : bool :=
  match es with
  | [] => false
  | e :: es' =>
      if bool_decide (event_type ∈ dom (get_types EVENTS e)) then true
      else any_loop EVENTS event_type es'
  end.

Definition any (EVENTS : Catalog) (s : Events) (event_type : string) : bool :=
  any_loop EVENTS event_type (events s).

(** [Events.add_from_msg] is defined after the record type below. *)

(** ** The [car.CarEvent] record

    Modelled from the spec: the capnp struct [car.CarEvent] is declared in
    [cereal], outside this source tree.  The record boundary of the spec is
    an identifier together with one boolean flag per category; the struct
    has a field [name] and one [Bool] field per event type of [ET]. *)
Record CarEvent := mkCarEvent {
  name : N;
  enable : bool;
  preEnable : bool;
  noEntry : bool;
  warning : bool;
  userDisable : bool;
  softDisable : bool;
  immediateDisable : bool;
  permanent : bool
}.

(** [car.CarEvent.new_message()]: every field at its default. *)
Definition new_message : CarEvent :=
  mkCarEvent 0%N false false false false false false false false.

(** [event.name = event_name] *)
Definition set_name (n : N) (m : CarEvent) : CarEvent :=
  mkCarEvent n (enable m) (preEnable m) (noEntry m) (warning m)
             (userDisable m) (softDisable m) (immediateDisable m)
             (permanent m).

(** [setattr(event, event_type, True)]: a name that is not a field of the
    struct raises. *)
Definition setattr_True (event_type : string) (m : CarEvent)
    : result CarEvent :=
  if String.eqb event_type ET.ENABLE then
    inr (mkCarEvent (name m) true (preEnable m) (noEntry m) (warning m)
           (userDisable m) (softDisable m) (immediateDisable m) (permanent m))
  else if String.eqb event_type ET.PRE_ENABLE then
    inr (mkCarEvent (name m) (enable m) true (noEntry m) (warning m)
           (userDisable m) (softDisable m) (immediateDisable m) (permanent m))
  else if String.eqb event_type ET.NO_ENTRY then
    inr (mkCarEvent (name m) (enable m) (preEnable m) true (warning m)
           (userDisable m) (softDisable m) (immediateDisable m) (permanent m))
  else if String.eqb event_type ET.WARNING then
    inr (mkCarEvent (name m) (enable m) (preEnable m) (noEntry m) true
           (userDisable m) (softDisable m) (immediateDisable m) (permanent m))
  else if String.eqb event_type ET.USER_DISABLE then
    inr (mkCarEvent (name m) (enable m) (preEnable m) (noEntry m) (warning m)
           true (softDisable m) (immediateDisable m) (permanent m))
  else if String.eqb event_type ET.SOFT_DISABLE then
    inr (mkCarEvent (name m) (enable m) (preEnable m) (noEntry m) (warning m)
           (userDisable m) true (immediateDisable m) (permanent m))
  else if String.eqb event_type ET.IMMEDIATE_DISABLE then
    inr (mkCarEvent (name m) (enable m) (preEnable m) (noEntry m) (warning m)
           (userDisable m) (softDisable m) true (permanent m))
  else if String.eqb event_type ET.PERMANENT then
    inr (mkCarEvent (name m) (enable m) (preEnable m) (noEntry m) (warning m)
           (userDisable m) (softDisable m) (immediateDisable m) true)
  else inl AttributeError.

(** Reading a flag back by its field name ([getattr]); used to state what a
    record carries. *)
Definition flag (event_type : string) (m : CarEvent) : bool :=
  if String.eqb event_type ET.ENABLE then enable m
  else if String.eqb event_type ET.PRE_ENABLE then preEnable m
  else if String.eqb event_type ET.NO_ENTRY then noEntry m
  else if String.eqb event_type ET.WARNING then warning m
  else if String.eqb event_type ET.USER_DISABLE then userDisable m
  else if String.eqb event_type ET.SOFT_DISABLE then softDisable m
  else if String.eqb event_type ET.IMMEDIATE_DISABLE then immediateDisable m
  else if String.eqb event_type ET.PERMANENT then permanent m
  else false.

(** The field names of the struct that hold a category flag. *)
Definition event_type_fields : list string :=
  [ET.ENABLE; ET.PRE_ENABLE; ET.NO_ENTRY; ET.WARNING; ET.USER_DISABLE;
   ET.SOFT_DISABLE; ET.IMMEDIATE_DISABLE; ET.PERMANENT].

(** [Events.add_from_msg]: appends [e.name.raw] for every record. *)
Definition add_from_msg (msgs : list CarEvent) (s : Events) : Events :=
  {| events := events s ++ map name msgs;
     static_events := static_events s;
     events_prev := events_prev s |}.

(** The inner loop of [Events.to_msg]:
    [for event_type in EVENTS.get(event_name, {}).keys(): setattr(...)]. *)
Fixpoint set_flags (event_types : list string) (m : CarEvent)
    : result CarEvent :=
  match event_types with
  | [] => inr m
  | et :: ets =>
      match setattr_True et m with
      | inl x => inl x
      | inr m' => set_flags ets m'
      end
  end.

Definition to_msg_event (EVENTS : Catalog) (event_name : N)
    : result CarEvent :=
  set_flags (map fst (map_to_list (get_types EVENTS event_name)))
            (set_name event_name new_message).

(** [Events.to_msg] *)
Fixpoint to_msg_loop (EVENTS : Catalog) (es : list N) (ret : list CarEvent)
    : result (list CarEvent) :=
  match es with
  | [] => inr ret
  | event_name :: es' =>
      match to_msg_event EVENTS event_name with
      | inl x => inl x
      | inr event => to_msg_loop EVENTS es' (ret ++ [event])
      end
  end.

Definition to_msg (EVENTS : Catalog) (s : Events) : result (list CarEvent) :=
  to_msg_loop EVENTS (events s) [].

(** ** The store monad of [create_alerts]

    A computation reads and writes the catalog and may raise; writes made
    before an exception stay. *)
Definition M (A : Type) : Type :=
  gmap N (gmap string entry) → result A * gmap N (gmap string entry).

#[global] Instance M_ret : MRet M := λ A x EVENTS, (inr x, EVENTS).

#[global] Instance M_bind : MBind M := λ A B k m EVENTS,
  match m EVENTS with
  | (inl x, EVENTS') => (inl x, EVENTS')
  | (inr a, EVENTS') => k a EVENTS'
  end.

Definition raise {A} (x : exn) : M A := λ EVENTS, (inl x, EVENTS).

Definition lift {A} (r : result A) : M A := λ EVENTS, (r, EVENTS).

(** [d[k]] on a dictionary that is not the catalog. *)
Definition getitem {K V} `{Countable K} (d : gmap K V) (k : K) : M V :=
  match d !! k with
  | Some v => mret v
  | None => raise KeyError
  end.

(** [EVENTS[e]] *)
Definition EVENTS_getitem (e : N) : M (gmap string entry) := λ EVENTS,
  match EVENTS !! e with
  | Some tys => (inr tys, EVENTS)
  | None => (inl KeyError, EVENTS)
  end.

(** What the variable [alert] of [create_alerts] points to: the object
    stored in the catalog under [EVENTS[e][et]], or the object a callback
    has just built, which nothing else refers to. *)
Inductive alert_ref :=
  | InCatalog (e : N) (et : string)
  | Fresh (a : Alert).

(** The object behind a reference. *)
Definition deref (EVENTS : Catalog) (r : alert_ref) : option Alert :=
  match r with
  | InCatalog e et =>
      match EVENTS !! e ≫= (.!! et) with
      | Some (Static a) => Some a
      | _ => None
      end
  | Fresh a => Some a
  end.

(** Reading [alert.<field>]. *)
Definition read (r : alert_ref) : M Alert := λ EVENTS,
  match deref EVENTS r with
  | Some a => (inr a, EVENTS)
  | None => (inl AttributeError, EVENTS)
  end.

(** [alert.alert_type = ty; alert.event_type = et]: through a reference
    into the catalog the writes land in the catalog. *)
Definition set_stamp (r : alert_ref) (ty et' : string) : M alert_ref :=
  match r with
  | InCatalog e et => λ EVENTS,
      match EVENTS !! e with
      | Some tys =>
          match tys !! et with
          | Some (Static a) =>
              (inr r, <[e := <[et := Static (stamp ty et' a)]> tys]> EVENTS)
          | _ => (inl AttributeError, EVENTS)
          end
      | None => (inl AttributeError, EVENTS)
      end
  | Fresh a => mret (Fresh (stamp ty et' a))
  end.

Section create_alerts.

(** [common.realtime.DT_CTRL] and the dictionary [EVENT_NAME] built from
    the capnp schema are defined outside this source tree. *)
Variable DT_CTRL : Q.
Variable EVENT_NAME : gmap N string.

(** The body of [if et in types:]. *)
Definition resolve (s : Events) (callback_args : list PyArg)
    (e : N) (et : string) (ret : list alert_ref) : M (list alert_ref) :=
  tys ← EVENTS_getitem e;
  alert ← getitem tys et;
  alert ← match alert with
          | Static _ => mret (InCatalog e et)
          | Callback f => a ← lift (f callback_args); mret (Fresh a)
          end;
  v ← getitem (events_prev s) e;
  a ← read alert;
  if Qle_bool (creation_delay a) (DT_CTRL * inject_Z (v + 1)) then
    nm ← getitem EVENT_NAME e;
    alert ← set_stamp alert (nm +:+ "/" +:+ et) et;
    mret (ret ++ [alert])
  else mret ret.

(** [for et in event_types:] *)
Fixpoint for_event_types (s : Events) (callback_args : list PyArg)
    (e : N) (types : gset string) (event_types : list string)
    (ret : list alert_ref) : M (list alert_ref) :=
  match event_types with
  | [] => mret ret
  | et :: ets =>
      ret ← (if bool_decide (et ∈ types)
             then resolve s callback_args e et ret
             else mret ret);
      for_event_types s callback_args e types ets ret
  end.

(** [for e in self.events:] *)
Fixpoint for_events (s : Events) (callback_args : list PyArg)
    (event_types : list string) (es : list N) (ret : list alert_ref)
    : M (list alert_ref) :=
  match es with
  | [] => mret ret
  | e :: es' =>
      tys ← EVENTS_getitem e;
      ret ← for_event_types s callback_args e (dom tys) event_types ret;
      for_events s callback_args event_types es' ret
  end.

(** [Events.create_alerts] *)
Definition create_alerts (s : Events) (event_types : list string)
    (callback_args : option (list PyArg)) : M (list alert_ref) :=
  for_events s (default [] callback_args) event_types (events s) [].

End create_alerts.

(** The contents of a returned list, read in the store it was returned
    with. *)
Definition contents (EVENTS : Catalog) (ret : list alert_ref) : list Alert :=
  omap (deref EVENTS) ret.

(** ** Alert classes and a callback of the source *)

(** [class NoEntryAlert(Alert)] *)
Definition NoEntryAlert (alert_text_2 : string) (audible : AudibleAlert)
    (visual : VisualAlert) (duration_hud : Q) : Alert :=
  Alert_init "�������Ϸ� ���Ұ�" alert_text_2 normal
             mid LOW visual audible 0.4 duration_hud 3 0 0.

(** [class SoftDisableAlert(Alert)] *)
Definition SoftDisableAlert (alert_text_2 : string) : Alert :=
  Alert_init "�ڵ��� ��� ����ּ���" alert_text_2 userPrompt full
             MID steerRequired chimeError 0.1 2 2 0 0.

(** [class EngagementAlert(Alert)] *)
Definition EngagementAlert (audible : AudibleAlert) : Alert :=
  Alert_init "" "" normal size_none MID visual_none audible 0.2 0 0 0 0.

(** [wrong_car_mode_alert(CP, sm, metric)]: any three arguments are bound;
    [sm] and [metric] are not used, [CP.carName] is read and raises
    [AttributeError] on an argument that has no such attribute. *)
Definition wrong_car_mode_alert (callback_args : list PyArg) : result Alert :=
  match callback_args with
  | [CP; sm; metric] =>
      let text := "ũ���� ��Ȱ������" in
      match CP with
      | PyCarParams CP =>
          let text :=
            if String.eqb (carName CP) "honda" then "���� ����ġ OFF" else text in
          inr (NoEntryAlert text chimeError visual_none 0)
      | _ => inl AttributeError
      end
  | _ => inl TypeError
  end.

(** ** An excerpt of [EVENTS]

    The ordinals of [EventName] are assigned by the capnp schema, outside
    this source tree.  The properties below are stated for every catalog;
    the excerpt fixes six entries of the source under distinct keys, with
    the matching part of [EVENT_NAME], to evaluate the engine on. *)
Module EventName.
Definition wrongCarMode : N := 8.
Definition reverseGear : N := 10.
Definition pcmEnable : N := 23.
Definition preLaneChangeLeft : N := 57.
Definition gasPressed : N := 73.
Definition startupOneplus : N := 82.
(** An identifier that [EVENTS] has no entry for. *)
Definition gasUnavailable : N := 3.
End EventName.

Definition EVENTS_excerpt : gmap N (gmap string entry) :=
  <[EventName.startupOneplus := {[
      ET.PERMANENT := Static (Alert_init
        "WARNING: Original EON deprecated"
        "Device will no longer update"
        userPrompt mid LOWER visual_none audible_none 0 0 15 0 0) ]} ]>
  (<[EventName.gasPressed := {[
      ET.PRE_ENABLE := Static (Alert_init
        "�����дް����� �������Ϸ��� �극��ũ�� ��������ʽ��ϴ�"
        ""
        normal small LOWEST visual_none audible_none 0 0 0.1 0 1) ]} ]>
  (<[EventName.preLaneChangeLeft := {[
      ET.WARNING := Static (Alert_init
        "������ �����մϴ�"
        "���������� ������ Ȯ���ϼ���"
        normal mid LOW steerRequired audible_none 0 0.1 0.1 0.75 0) ]} ]>
  (<[EventName.pcmEnable := {[
      ET.ENABLE := Static (EngagementAlert chimeEngage) ]} ]>
  (<[EventName.wrongCarMode :=
      <[ET.USER_DISABLE := Static (EngagementAlert chimeDisengage)]>
      {[ET.NO_ENTRY := Callback wrong_car_mode_alert]} ]>
  (<[EventName.reverseGear :=
      <[ET.PERMANENT := Static (Alert_init
        "��� [R] ����"
        ""
        normal full LOWEST visual_none audible_none 0 0 0.2 0 0.5)]>
      (<[ET.SOFT_DISABLE := Static (SoftDisableAlert "��� [R] ����")]>
      {[ET.NO_ENTRY :=
          Static (NoEntryAlert "��� [R] ����" chimeError visual_none 2)]}) ]>
  ∅))))).

Definition EVENT_NAME_excerpt : gmap N string :=
  list_to_map
    [(EventName.wrongCarMode, "wrongCarMode");
     (EventName.reverseGear, "reverseGear");
     (EventName.pcmEnable, "pcmEnable");
     (EventName.preLaneChangeLeft, "preLaneChangeLeft");
     (EventName.gasPressed, "gasPressed");
     (EventName.startupOneplus, "startupOneplus");
     (EventName.gasUnavailable, "gasUnavailable")].

(** [DT_CTRL = 0.01]: the 100 Hz control loop. *)
Definition DT_CTRL_100Hz : Q := 0.01.

(** The test [DT_CTRL * (self.events_prev[e] + 1) >= alert.creation_delay]
    in IEEE binary64, the arithmetic of Python floats.  The engine above
    computes it on rationals; this version serves to check the outcome of
    the rational test on the delays of the source. *)
Definition eligible_binary64 (DT_CTRL creation_delay : float) (v : Z)
    : bool :=
  PrimFloat.leb creation_delay
    (PrimFloat.mul DT_CTRL (PrimFloat.of_uint63 (Uint63.of_Z (v + 1)))).

(** ** Driving the engine

    The control loop calls [clear], then [add] for every identifier reported
    in the tick, then queries. *)

(** The pushes of one tick. *)
Definition push (ids : list N) (s : Events) : Events :=
  foldl (λ s e, add e false s) s ids.

(** The operations that change an [Events] object. *)
Inductive op :=
  | Add (event_name : N) (static : bool)
  | Clear
  | AddFromMsg (msgs : list CarEvent).

Definition run_op (s : Events) (o : op) : Events :=
  match o with
  | Add e static => add e static s
  | Clear => clear s
  | AddFromMsg msgs => add_from_msg msgs s
  end.

Definition run (ops : list op) (s : Events) : Events := foldl run_op s ops.

(** The counter [events_prev[id]] read after each reset, when the reset
    numbered [k] follows the pushes of tick [k]. *)
Fixpoint counters_after_ticks (id : N) (ticks : list (list N)) (s : Events)
    : list (option Z) :=
  match ticks with
  | [] => []
  | ids :: ticks' =>
      let s' := clear (push ids s) in
      events_prev s' !! id :: counters_after_ticks id ticks' s'
  end.

(** The same counter when the reset numbered [k] opens tick [k]. *)
Fixpoint counters_before_ticks (id : N) (ticks : list (list N)) (s : Events)
    : list (option Z) :=
  match ticks with
  | [] => []
  | ids :: ticks' =>
      let s' := clear s in
      events_prev s' !! id :: counters_before_ticks id ticks' (push ids s')
  end.

(** The alert object an entry of the catalog resolves to: the stored alert,
    or the one its callback returns. *)
Definition entry_alert (en : entry) (callback_args : list PyArg)
    : option Alert :=
  match en with
  | Static a => Some a
  | Callback f =>
      match f callback_args with inr a => Some a | inl _ => None end
  end.

Section ticks.

Variable DT_CTRL : Q.
Variable EVENT_NAME : gmap N string.

(** One control tick: reset, push, query; the alerts are read in the
    store as the query leaves it. *)
Definition control_tick (ids : list N) (event_types : list string)
    (callback_args : option (list PyArg))
    (st : Events * gmap N (gmap string entry))
    : result (list Alert) * (Events * gmap N (gmap string entry)) :=
  let s := push ids (clear st.1) in
  let '(r, EVENTS') :=
    create_alerts DT_CTRL EVENT_NAME s event_types callback_args st.2 in
  (match r with
   | inl x => inl x
   | inr ret => inr (contents EVENTS' ret)
   end, (s, EVENTS')).

(** The engine after [n] ticks that all push [ids]. *)
Fixpoint after_ticks (ids : list N) (event_types : list string)
    (callback_args : option (list PyArg)) (n : nat)
    (st : Events * gmap N (gmap string entry))
    : Events * gmap N (gmap string entry) :=
  match n with
  | O => st
  | S n' =>
      (control_tick ids event_types callback_args
         (after_ticks ids event_types callback_args n' st)).2
  end.

(** What the query of tick [S n] returns. *)
Definition alerts_at_tick (ids : list N) (event_types : list string)
    (callback_args : option (list PyArg)) (n : nat)
    (st : Events * gmap N (gmap string entry)) : result (list Alert) :=
  (control_tick ids event_types callback_args
     (after_ticks ids event_types callback_args n st)).1.

(** The alert that the pair [(e, et)] contributes to [create_alerts], as a
    function of the store the call starts from. *)
Definition pair_alert (s : Events) (callback_args : list PyArg)
    (EVENTS : Catalog) (e : N) (et : string) : option Alert :=
  en ← EVENTS !! e ≫= (.!! et);
  a ← entry_alert en callback_args;
  v ← events_prev s !! e;
  if Qle_bool (creation_delay a) (DT_CTRL * inject_Z (v + 1)) then
    nm ← EVENT_NAME !! e;
    Some (stamp (nm +:+ "/" +:+ et) et a)
  else None.

(** The pairs in the order [create_alerts] visits them. *)
Definition expected_alerts (s : Events) (event_types : list string)
    (callback_args : list PyArg) (EVENTS : Catalog) : list Alert :=
  e ← events s; omap (pair_alert s callback_args EVENTS e) event_types.

End ticks.

(** ** Relating two stores *)

(** An alert without the two attributes that [create_alerts] writes. *)
Definition unstamp (a : Alert) : Alert :=
  {| alert_text_1 := alert_text_1 a; alert_text_2 := alert_text_2 a;
     alert_status := alert_status a; alert_size := alert_size a;
     alert_priority := alert_priority a; visual_alert := visual_alert a;
     audible_alert := audible_alert a;
     duration_sound := duration_sound a;
     duration_hud_alert := duration_hud_alert a;
     duration_text := duration_text a;
     alert_rate := alert_rate a; creation_delay := creation_delay a;
     start_time := start_time a; alert_type := ""; event_type := None |}.



(** An entry after [create_alerts] may have written to it: untouched, or a
    static alert that carries the stamp of its own pair. *)
Definition entry_stamped (nm : option string) (et : string)
    (en en' : entry) : Prop :=
  en' = en ∨
  ∃ a n, en = Static a ∧ nm = Some n ∧
         en' = Static (stamp (n +:+ "/" +:+ et) et a).

(** A store that [create_alerts] calls have turned [EVENTS] into. *)
Definition stamped (EVENT_NAME : gmap N string) (EVENTS EVENTS' : Catalog)
    : Prop :=
  ∀ e, option_Forall2
         (λ tys tys' : gmap string entry,
            ∀ et, option_Forall2 (entry_stamped (EVENT_NAME !! e) et)
                    (tys !! et) (tys' !! et))
         (EVENTS !! e) (EVENTS' !! e).

(** A returned reference [r] holds the alert [a] in the store [EVENTS]; a
    reference into the catalog holds an alert stamped with its own pair. *)
Definition ref_holds (EVENT_NAME : gmap N string) (EVENTS : Catalog)
    (r : alert_ref) (a : Alert) : Prop :=
  deref EVENTS r = Some a ∧
  match r with
  | InCatalog e et =>
      ∃ n, EVENT_NAME !! e = Some n ∧
           alert_type a = n +:+ "/" +:+ et ∧ event_type a = Some et
  | Fresh _ => True
  end.

(** Overwriting [alert_rate] everywhere: in an alert, in an entry (a
    callback then builds its alert with the new rate), in the catalog, in a
    returned reference and in the outcome of [create_alerts]. *)
Definition set_alert_rate (q : Q) (a : Alert) : Alert :=
  {| alert_text_1 := alert_text_1 a; alert_text_2 := alert_text_2 a;
     alert_status := alert_status a; alert_size := alert_size a;
     alert_priority := alert_priority a; visual_alert := visual_alert a;
     audible_alert := audible_alert a;
     duration_sound := duration_sound a;
     duration_hud_alert := duration_hud_alert a;
     duration_text := duration_text a;
     alert_rate := q; creation_delay := creation_delay a;
     start_time := start_time a; alert_type := alert_type a;
     event_type := event_type a |}.

Definition entry_set_alert_rate (q : Q) (en : entry) : entry :=
  match en with
  | Static a => Static (set_alert_rate q a)
  | Callback f =>
      Callback (λ callback_args,
                  match f callback_args with
                  | inl x => inl x
                  | inr a => inr (set_alert_rate q a)
                  end)
  end.

Definition catalog_set_alert_rate (q : Q) (EVENTS : Catalog) : Catalog :=
  (λ tys : gmap string entry, entry_set_alert_rate q <$> tys) <$> EVENTS.

Definition ref_set_alert_rate (q : Q) (r : alert_ref) : alert_ref :=
  match r with
  | InCatalog e et => InCatalog e et
  | Fresh a => Fresh (set_alert_rate q a)
  end.

Definition outcome_set_alert_rate (q : Q)
    (o : result (list alert_ref) * gmap N (gmap string entry))
    : result (list alert_ref) * gmap N (gmap string entry) :=
  (match o.1 with
   | inl x => inl x
   | inr ret => inr (ref_set_alert_rate q <$> ret)
   end, catalog_set_alert_rate q o.2).

(** The field names a catalog may use as event types: those of the record
    that [to_msg] fills. *)
Definition event_types_are_fields (EVENTS : Catalog) : Prop :=
  map_Forall (λ _ (tys : gmap string entry),
                map_Forall (λ et _, et ∈ event_type_fields) tys) EVENTS.

(** ** Runs of the engine and what a query needs to return *)

(** A run of ticks in which every tick pushes its identifiers and the reset
    follows. *)
Definition after_resets (ticks : list (list N)) (s : Events) : Events :=
  foldl (λ s ids, clear (push ids s)) s ticks.

(** The number of ticks, counted back from the last one, in which [id] was
    pushed without a gap; the ticks are given last first. *)
Fixpoint streak_from_last (id : N) (rev_ticks : list (list N)) : Z :=
  match rev_ticks with
  | [] => 0
  | ids :: rest =>
      if bool_decide (id ∈ ids) then streak_from_last id rest + 1 else 0
  end.

Definition streak (id : N) (ticks : list (list N)) : Z :=
  streak_from_last id (reverse ticks).

(** The number of [clear] calls among operations. *)
Definition is_Clear (o : op) : bool :=
  match o with Clear => true | _ => false end.

Definition count_clears (ops : list op) : Z :=
  Z.of_nat (length (filter (λ o, is_Clear o = true) ops)).

(** What the visit of the pair [(e, et)] needs in order not to raise: when
    the entry of [e] has the type [et], the callback (if any) returns, the
    counter of [e] exists and, when the alert is eligible, [e] has a
    name. *)
Definition pair_returns (DT_CTRL : Q) (EVENT_NAME : gmap N string)
    (s : Events) (callback_args : list PyArg) (EVENTS : Catalog)
    (e : N) (et : string) : Prop :=
  match EVENTS !! e ≫= (.!! et) with
  | None => True
  | Some en =>
      ∃ a v, entry_alert en callback_args = Some a ∧
             events_prev s !! e = Some v ∧
             (Qle_bool (creation_delay a) (DT_CTRL * inject_Z (v + 1)) = true
              → is_Some (EVENT_NAME !! e))
  end.

(** A run of ticks with their queries: every tick pushes its identifiers
    and asks [create_alerts] for its event types with its arguments. *)
Definition after_queries (DT_CTRL : Q) (EVENT_NAME : gmap N string)
    (ticks : list (list N * list string * option (list PyArg)))
    (st : Events * gmap N (gmap string entry))
    : Events * gmap N (gmap string entry) :=
  foldl (λ st t, (control_tick DT_CTRL EVENT_NAME t.1.1 t.1.2 t.2 st).2)
        st ticks.

(** Whether the binary64 test and the rational test agree on a creation
    delay, at 100 Hz, for the [n] counters from [v] on. *)
Fixpoint tests_agree_from (n : nat) (v : Z) (delay_binary64 : float)
    (delay : Q) : bool :=
  match n with
  | O => true
  | S n =>
      Bool.eqb (eligible_binary64 0.01 delay_binary64 v)
               (Qle_bool delay (DT_CTRL_100Hz * inject_Z (v + 1)))
      && tests_agree_from n (v + 1) delay_binary64 delay
  end.

(** The creation delays of the source (the default [0.] of line 114 and the
    values of lines 203, 337, 553, 676 and 705), each as the binary64 number
    and as the rational; all four are binary64 numbers, so the two are the
    same number. *)
Definition creation_delays : list (float * Q) :=
  [(0%float, 0%Q); (0.5%float, 0.5%Q); (1%float, 1%Q); (300%float, 300%Q)].

(** * Properties of the engine *)

(** ** The fields of an [Events] object under its operations *)

Lemma events_push ids s : events (push ids s) = events s ++ ids.
Proof.
  revert s. induction ids as [|e ids IH]; intros s; simpl.
  - by rewrite app_nil_r.
  - rewrite IH. simpl. by rewrite <- app_assoc.
Qed.

Lemma static_events_push ids s :
  static_events (push ids s) = static_events s.
Proof.
  revert s. induction ids as [|e ids IH]; intros s; simpl; [done|].
  by rewrite IH.
Qed.

Lemma events_prev_push ids s : events_prev (push ids s) = events_prev s.
Proof.
  revert s. induction ids as [|e ids IH]; intros s; simpl; [done|].
  by rewrite IH.
Qed.

Lemma events_prev_clear s k :
  events_prev (clear s) !! k =
  (λ v, if bool_decide (k ∈ events s) then v + 1 else 0) <$> events_prev s !! k.
Proof.
  unfold clear; simpl. rewrite map_lookup_imap.
  by destruct (events_prev s !! k).
Qed.

Lemma events_prev_init (EVENTS : gmap N (gmap string entry)) k :
  events_prev (Events_init EVENTS) !! k = (λ _, 0) <$> EVENTS !! k.
Proof. unfold Events_init; simpl. by rewrite lookup_fmap. Qed.

(** ** [Events.any] *)

Lemma elem_of_dom_get_types (EVENTS : gmap N (gmap string entry)) e et :
  et ∈ dom (get_types EVENTS e) ↔
  ∃ tys, EVENTS !! e = Some tys ∧ is_Some (tys !! et).
Proof.
  unfold get_types. destruct (EVENTS !! e) as [tys|]; simpl.
  - rewrite elem_of_dom. split; [eauto|]. by intros (? & [= <-] & ?).
  - rewrite dom_empty_L. split; [set_solver|]. by intros (? & ? & ?).
Qed.

Lemma any_loop_true (EVENTS : gmap N (gmap string entry)) et es :
  any_loop EVENTS et es = true ↔
  ∃ e, e ∈ es ∧ et ∈ dom (get_types EVENTS e).
Proof.
  induction es as [|e es IH]; simpl.
  - split; [done|]. intros (? & ?%elem_of_nil & _). done.
  - case_bool_decide as Hin.
    + split; [|done]. intros _. exists e. split; [left|done].
    + rewrite IH. split.
      * intros (e' & ? & ?). exists e'. split; [by right|done].
      * intros (e' & [->|?]%elem_of_cons & ?); [done|eauto].
Qed.

Lemma any_unknown (EVENTS : gmap N (gmap string entry)) s et :
  (∀ e, e ∈ events s → EVENTS !! e = None) → any EVENTS s et = false.
Proof.
  intros Hun. destruct (any EVENTS s et) eqn:Hany; [|done].
  apply any_loop_true in Hany as (e & He & Het).
  apply elem_of_dom_get_types in Het as (tys & Htys & _).
  rewrite (Hun e He) in Htys. discriminate Htys.
Qed.

(** C5.  [Events.any] is total: in every state of the object, for every
    catalog and every event-type string, it returns a boolean; the boolean
    is [true] exactly when some identifier of the active list has the event
    type among the keys of its catalog entry, and [false] otherwise.
    Identifiers without a catalog entry take the [{}] default and never
    contribute. *)
Theorem any_total (EVENTS : gmap N (gmap string entry)) (s : Events)
    (event_type : string) :
  let maps_to_type :=
    ∃ e tys, e ∈ events s ∧ EVENTS !! e = Some tys ∧
             is_Some (tys !! event_type) in
  (any EVENTS s event_type = true ↔ maps_to_type) ∧
  (any EVENTS s event_type = false ↔ ¬ maps_to_type).
Proof.
  intros P.
  assert (Ht : any EVENTS s event_type = true ↔ P).
  { unfold any, P. rewrite any_loop_true. split.
    - intros (e & He & (tys & ? & ?)%elem_of_dom_get_types). eauto.
    - intros (e & tys & He & ? & ?). exists e. split; [done|].
      apply elem_of_dom_get_types. eauto. }
  split; [done|].
  rewrite <- Ht. destruct (any EVENTS s event_type); split; congruence.
Qed.

(** ** Static events *)

Lemma run_keeps_static ops s id :
  id ∈ static_events s → id ∈ events s →
  id ∈ static_events (run ops s) ∧ id ∈ events (run ops s).
Proof.
  revert s. induction ops as [|o ops IH]; intros s Hst Hev; [done|].
  simpl. apply IH; destruct o as [e [|]| |msgs]; simpl;
    rewrite ?elem_of_app; auto.
Qed.

(** C4.  An identifier added with [add(id, static=True)] is a member of the
    active list [events] after any sequence of later operations on the
    object: any number of [clear] calls, with or without further [add] or
    [add_from_msg] calls in between. *)
Theorem static_event_persists (s : Events) (id : N) (ops : list op) :
  id ∈ events (run ops (add id true s)).
Proof.
  apply run_keeps_static; simpl; rewrite elem_of_app, list_elem_of_singleton; auto.
Qed.

(** The instance of the claim with resets only. *)
Lemma static_event_survives_clears (s : Events) (id : N) (n : nat) :
  id ∈ events (Nat.iter n clear (add id true s)).
Proof.
  assert (Hrun : ∀ s', Nat.iter n clear s' = run (replicate n Clear) s').
  { induction n as [|n IH]; intros s'; [done|].
    rewrite Nat.iter_succ_r. simpl. apply IH. }
  rewrite Hrun. apply run_keeps_static; simpl;
    rewrite elem_of_app, list_elem_of_singleton; auto.
Qed.

(** ** The counter [events_prev] *)

Lemma counter_after_tick (s : Events) (ids : list N) (id : N) :
  events s = [] →
  events_prev (clear (push ids s)) !! id =
  (λ v, if bool_decide (id ∈ ids) then v + 1 else 0) <$> events_prev s !! id.
Proof.
  intros Hev. rewrite events_prev_clear, events_push, events_prev_push, Hev.
  done.
Qed.

Lemma events_clear_push (s : Events) (ids : list N) :
  static_events s = [] → events (clear (push ids s)) = [].
Proof. intros Hst. simpl. by rewrite static_events_push. Qed.

Lemma static_events_clear_push (s : Events) (ids : list N) :
  static_events (clear (push ids s)) = static_events s.
Proof. simpl. by rewrite static_events_push. Qed.

(** C1, as the code has it.  [clear] maps the counter of every key [k] of
    [events_prev] to [v + 1] when [k] is in the active list being cleared
    and to [0] when it is not: the counter counts consecutive ticks in
    which the identifier was active.  For an identifier of the catalog
    that is pushed on ticks 1 to 3, not on tick 4 and again on tick 5, the
    counter read after the five resets that follow these ticks is
    1, 2, 3, 0, 1. *)
Theorem clear_counts_active_ticks (EVENTS : gmap N (gmap string entry))
    (id : N) (p1 p2 p3 p4 p5 : list N) :
  is_Some (EVENTS !! id) →
  id ∈ p1 → id ∈ p2 → id ∈ p3 → id ∉ p4 → id ∈ p5 →
  (∀ s k, events_prev (clear s) !! k =
          (λ v, if bool_decide (k ∈ events s) then v + 1 else 0)
            <$> events_prev s !! k) ∧
  counters_after_ticks id [p1; p2; p3; p4; p5] (Events_init EVENTS) =
    [Some 1; Some 2; Some 3; Some 0; Some 1].
Proof.
  intros [tys Hid] H1 H2 H3 H4 H5. split; [apply events_prev_clear|].
  assert (H0 : events_prev (Events_init EVENTS) !! id = Some 0)
    by (by rewrite events_prev_init, Hid).
  unfold counters_after_ticks.
  set (s1 := clear (push p1 (Events_init EVENTS))).
  set (s2 := clear (push p2 s1)). set (s3 := clear (push p3 s2)).
  set (s4 := clear (push p4 s3)). set (s5 := clear (push p5 s4)).
  assert (E1 : events s1 = [] ∧ static_events s1 = []).
  { split; [by apply events_clear_push|]. unfold s1. by rewrite static_events_clear_push. }
  assert (E2 : events s2 = [] ∧ static_events s2 = []).
  { split; [by apply events_clear_push, E1|]. unfold s2. rewrite static_events_clear_push. apply E1. }
  assert (E3 : events s3 = [] ∧ static_events s3 = []).
  { split; [by apply events_clear_push, E2|]. unfold s3. rewrite static_events_clear_push. apply E2. }
  assert (E4 : events s4 = [] ∧ static_events s4 = []).
  { split; [by apply events_clear_push, E3|]. unfold s4. rewrite static_events_clear_push. apply E3. }
  assert (C1 : events_prev s1 !! id = Some 1).
  { unfold s1. rewrite counter_after_tick, H0 by done. simpl. by rewrite bool_decide_eq_true_2. }
  assert (C2 : events_prev s2 !! id = Some 2).
  { unfold s2. rewrite counter_after_tick, C1 by apply E1. simpl. by rewrite bool_decide_eq_true_2. }
  assert (C3 : events_prev s3 !! id = Some 3).
  { unfold s3. rewrite counter_after_tick, C2 by apply E2. simpl. by rewrite bool_decide_eq_true_2. }
  assert (C4 : events_prev s4 !! id = Some 0).
  { unfold s4. rewrite counter_after_tick, C3 by apply E3. simpl. by rewrite bool_decide_eq_false_2. }
  assert (C5 : events_prev s5 !! id = Some 1).
  { unfold s5. rewrite counter_after_tick, C4 by apply E4. simpl. by rewrite bool_decide_eq_true_2. }
  by rewrite C1, C2, C3, C4, C5.
Qed.

(** The same scenario when each reset opens its tick: the counter read
    after the five resets is 0, 1, 2, 3, 0. *)
Lemma clear_counts_active_ticks_before (EVENTS : gmap N (gmap string entry))
    (id : N) :
  is_Some (EVENTS !! id) →
  counters_before_ticks id [[id]; [id]; [id]; []; [id]] (Events_init EVENTS) =
    [Some 0; Some 1; Some 2; Some 3; Some 0].
Proof.
  intros [tys Hid]. simpl.
  rewrite !map_lookup_imap, lookup_fmap, Hid. simpl.
  repeat (first [rewrite bool_decide_eq_true_2 by set_solver
                |rewrite bool_decide_eq_false_2 by set_solver]; simpl).
  done.
Qed.

(** The instance of [clear_counts_active_ticks] on the excerpt. *)
Lemma clear_counts_active_ticks_witness :
  let id := EventName.gasPressed in
  is_Some (EVENTS_excerpt !! id) ∧
  counters_after_ticks id [[id]; [id]; [id]; []; [id]]
    (Events_init EVENTS_excerpt) =
  [Some 1; Some 2; Some 3; Some 0; Some 1].
Proof.
  intros id.
  assert (Hid : is_Some (EVENTS_excerpt !! id)) by (vm_compute; eauto).
  split; [exact Hid|].
  apply (clear_counts_active_ticks EVENTS_excerpt id [id] [id] [id] [] [id]);
    first [exact Hid | apply list_elem_of_singleton; reflexivity
          | apply not_elem_of_nil].
Defined.

(** C1, as the claim states it, fails on the code.  With the identifier
    active on ticks 1 to 3, inactive on tick 4 and active on tick 5, the
    counter is not 0, 0, 0, 1, 0 across the five resets, whether each reset
    closes or opens its tick; and a reset that finds the identifier active
    does not set its counter to 0, nor does one that finds it inactive
    increment it. *)
Lemma clear_counter_is_not_an_inactivity_count :
  let id := EventName.gasPressed in
  let ticks := [[id]; [id]; [id]; []; [id]] in
  let claimed := [Some 0; Some 0; Some 0; Some 1; Some 0] in
  let s0 := Events_init EVENTS_excerpt in
  counters_after_ticks id ticks s0 ≠ claimed ∧
  counters_before_ticks id ticks s0 ≠ claimed ∧
  events_prev (clear (add id false s0)) !! id ≠ Some 0 ∧
  events_prev (clear s0) !! id ≠ Some 1.
Proof.
  intros id ticks claimed s0. subst id ticks claimed s0.
  split; [|split; [|split]]; intros H; vm_compute in H;
    discriminate H.
Qed.

(** ** [Events.to_msg] *)

Lemma setattr_True_field et m m' :
  setattr_True et m = inr m' → et ∈ event_type_fields.
Proof.
  unfold setattr_True, event_type_fields.
  repeat match goal with
         | |- context [String.eqb et ?x] =>
             destruct (String.eqb_spec et x) as [->|_]; [intros _; set_solver|]
         end.
  discriminate.
Qed.

Lemma setattr_True_name et m m' :
  setattr_True et m = inr m' → name m' = name m.
Proof.
  unfold setattr_True.
  repeat match goal with
         | |- context [String.eqb et ?x] =>
             destruct (String.eqb et x); [by intros [= <-]|]
         end.
  discriminate.
Qed.

Lemma setattr_True_is_field et m :
  et ∈ event_type_fields → is_Some (match setattr_True et m with inr m' => Some m' | inl _ => None end).
Proof.
  unfold event_type_fields. rewrite !elem_of_cons, elem_of_nil.
  intros [->|[->|[->|[->|[->|[->|[->|[->|[]]]]]]]]]; by eexists.
Qed.

Lemma setattr_True_flag et m m' et' :
  setattr_True et m = inr m' →
  flag et' m' = flag et' m || bool_decide (et' = et).
Proof.
  intros Hset. pose proof (setattr_True_field _ _ _ Hset) as Hf.
  revert Hset. unfold event_type_fields in Hf.
  rewrite !elem_of_cons, elem_of_nil in Hf.
  destruct Hf as [->|[->|[->|[->|[->|[->|[->|[->|[]]]]]]]]];
    intros [= <-]; unfold flag;
    repeat match goal with
           | |- context [String.eqb et' ?x] =>
               destruct (String.eqb_spec et' x) as [->|?]
           end; simpl;
    rewrite ?orb_false_r, ?orb_true_r;
    try done;
    try (rewrite bool_decide_eq_false_2 by done; by rewrite ?orb_false_r).
Qed.

Lemma set_flags_spec ets m m' :
  set_flags ets m = inr m' →
  name m' = name m ∧
  ∀ et', flag et' m' = flag et' m || bool_decide (et' ∈ ets).
Proof.
  revert m. induction ets as [|et ets IH]; intros m; cbn [set_flags].
  - intros [= <-]. split; [done|]. intros et'.
    rewrite bool_decide_eq_false_2 by apply not_elem_of_nil.
    by rewrite orb_false_r.
  - destruct (setattr_True et m) as [x|m1] eqn:Hset; [done|].
    intros [Hn Hf]%IH. split.
    + rewrite Hn. by eapply setattr_True_name.
    + intros et'. rewrite Hf, (setattr_True_flag _ _ _ et' Hset).
      rewrite <- orb_assoc. f_equal.
      apply eq_true_iff_eq. rewrite orb_true_iff, !bool_decide_eq_true.
      rewrite elem_of_cons. tauto.
Qed.

Lemma set_flags_fields ets m :
  Forall (.∈ event_type_fields) ets → ∃ m', set_flags ets m = inr m'.
Proof.
  intros Hall. revert m. induction Hall as [|et ets Het _ IH]; intros m; simpl.
  - eauto.
  - destruct (setattr_True_is_field et m Het) as [m1 Hm1].
    destruct (setattr_True et m) as [x|m1']; [done|]. apply IH.
Qed.

Lemma elem_of_keys_get_types (EVENTS : gmap N (gmap string entry)) e et :
  et ∈ map fst (map_to_list (get_types EVENTS e)) ↔
  et ∈ dom (get_types EVENTS e).
Proof.
  rewrite elem_of_dom. change (map fst) with (fmap (M:=list) (@fst string entry)).
  rewrite list_elem_of_fmap. split.
  - intros ([et' en] & -> & Hin%elem_of_map_to_list). simpl. eauto.
  - intros [en Hen]. exists (et, en). split; [done|].
    by apply elem_of_map_to_list.
Qed.

Lemma to_msg_event_spec (EVENTS : gmap N (gmap string entry)) e m :
  to_msg_event EVENTS e = inr m →
  name m = e ∧ ∀ et, flag et m = true ↔ et ∈ dom (get_types EVENTS e).
Proof.
  unfold to_msg_event. intros [Hn Hf]%set_flags_spec. split; [done|].
  intros et. rewrite Hf.
  assert (flag et (set_name e new_message) = false) as ->.
  { unfold flag. simpl. by repeat destruct (String.eqb et _). }
  simpl. rewrite bool_decide_eq_true. apply elem_of_keys_get_types.
Qed.

Lemma to_msg_event_unknown (EVENTS : gmap N (gmap string entry)) e :
  EVENTS !! e = None →
  to_msg_event EVENTS e = inr (set_name e new_message).
Proof.
  intros He. unfold to_msg_event, get_types. rewrite He. simpl.
  by rewrite map_to_list_empty.
Qed.

Lemma to_msg_event_fields (EVENTS : gmap N (gmap string entry)) e :
  event_types_are_fields EVENTS → ∃ m, to_msg_event EVENTS e = inr m.
Proof.
  intros Hwf. unfold to_msg_event. apply set_flags_fields.
  apply Forall_forall. intros et [tys [Htys [en Hen]]]%elem_of_keys_get_types%elem_of_dom_get_types.
  exact (Hwf _ _ Htys _ _ Hen).
Qed.

Lemma to_msg_loop_spec (EVENTS : gmap N (gmap string entry)) es ret msgs :
  to_msg_loop EVENTS es ret = inr msgs →
  ∃ new, msgs = ret ++ new ∧
         Forall2 (λ e m, to_msg_event EVENTS e = inr m) es new.
Proof.
  revert ret. induction es as [|e es IH]; intros ret; simpl.
  - intros [= <-]. exists []. by rewrite app_nil_r.
  - destruct (to_msg_event EVENTS e) as [x|m] eqn:Hm; [done|].
    intros (new & -> & Hall)%IH. exists (m :: new).
    rewrite <- app_assoc. split; [done|]. by constructor.
Qed.

Lemma to_msg_loop_fields (EVENTS : gmap N (gmap string entry)) es ret :
  event_types_are_fields EVENTS → ∃ msgs, to_msg_loop EVENTS es ret = inr msgs.
Proof.
  intros Hwf. revert ret. induction es as [|e es IH]; intros ret; simpl.
  - eauto.
  - destruct (to_msg_event_fields EVENTS e Hwf) as [m ->]. apply IH.
Qed.

Lemma to_msg_records (EVENTS : gmap N (gmap string entry)) s msgs :
  to_msg EVENTS s = inr msgs →
  Forall2 (λ e m, to_msg_event EVENTS e = inr m) (events s) msgs.
Proof. unfold to_msg. by intros (new & -> & Hall)%to_msg_loop_spec. Qed.

Lemma to_msg_names (EVENTS : gmap N (gmap string entry)) s msgs :
  to_msg EVENTS s = inr msgs → map name msgs = events s.
Proof.
  intros Hall%to_msg_records.
  induction Hall as [|e m es ms Hm _ IH]; simpl; [done|].
  apply to_msg_event_spec in Hm as [-> _]. by rewrite IH.
Qed.

Lemma to_msg_loop_complete (EVENTS : gmap N (gmap string entry)) es ret new :
  Forall2 (λ e m, to_msg_event EVENTS e = inr m) es new →
  to_msg_loop EVENTS es ret = inr (ret ++ new).
Proof.
  intros Hall. revert ret.
  induction Hall as [|e m es ms Hm _ IH]; intros ret; simpl.
  - by rewrite app_nil_r.
  - rewrite Hm, IH. by rewrite <- app_assoc.
Qed.

(** C10.  [Events.to_msg] returns for every state of the object, provided
    the event types of the catalog are fields of the record (as all event
    types of [EVENTS] are).  It emits the records in the order of the active
    list, one per entry: a duplicate entry gives a second record and an
    identifier without a catalog entry gives a record too.  The record of an
    entry carries the identifier in [name] and has exactly the flags of the
    event types in the identifier's catalog entry; for an unknown identifier
    it is the fresh message with only [name] set. *)
Theorem to_msg_total (EVENTS : gmap N (gmap string entry)) (s : Events) :
  event_types_are_fields EVENTS →
  ∃ msgs,
    to_msg EVENTS s = inr msgs ∧
    Forall2 (λ e m,
               name m = e ∧
               (∀ et, flag et m = true ↔
                      ∃ tys, EVENTS !! e = Some tys ∧ is_Some (tys !! et)) ∧
               (EVENTS !! e = None → m = set_name e new_message))
            (events s) msgs.
Proof.
  intros Hwf. destruct (to_msg_loop_fields EVENTS (events s) [] Hwf) as [msgs Hmsgs].
  exists msgs. split; [done|].
  apply to_msg_records in Hmsgs.
  eapply Forall2_impl; [exact Hmsgs|]. simpl. intros e m Hm.
  pose proof (to_msg_event_spec _ _ _ Hm) as [Hn Hf].
  split; [done|]. split.
  - intros et. rewrite Hf. apply elem_of_dom_get_types.
  - intros He. rewrite (to_msg_event_unknown _ _ He) in Hm. congruence.
Qed.

Lemma EVENTS_excerpt_fields : event_types_are_fields EVENTS_excerpt.
Proof. apply (bool_decide_unpack _). vm_compute. exact I. Qed.

(** The instance of [to_msg_total] on the excerpt, for an active list with
    a duplicate and an identifier that the catalog does not know. *)
Lemma to_msg_total_witness :
  let s := push [EventName.reverseGear; EventName.gasUnavailable;
                 EventName.reverseGear] (Events_init EVENTS_excerpt) in
  event_types_are_fields EVENTS_excerpt ∧
  ∃ msgs,
    to_msg EVENTS_excerpt s = inr msgs ∧
    Forall2 (λ e m,
               name m = e ∧
               (∀ et, flag et m = true ↔
                      ∃ tys, EVENTS_excerpt !! e = Some tys ∧
                             is_Some (tys !! et)) ∧
               (EVENTS_excerpt !! e = None → m = set_name e new_message))
            (events s) msgs.
Proof.
  intros s. split; [exact EVENTS_excerpt_fields|].
  exact (to_msg_total EVENTS_excerpt s EVENTS_excerpt_fields).
Defined.

(** The records of that state, evaluated. *)
Example to_msg_duplicate_and_unknown :
  to_msg EVENTS_excerpt
    (push [EventName.reverseGear; EventName.gasUnavailable;
           EventName.reverseGear] (Events_init EVENTS_excerpt)) =
  inr [mkCarEvent EventName.reverseGear false false true false false true
                  false true;
       mkCarEvent EventName.gasUnavailable false false false false false
                  false false false;
       mkCarEvent EventName.reverseGear false false true false false true
                  false true].
Proof. vm_compute. reflexivity. Qed.

(** ** The record boundary *)

Lemma any_ext (EVENTS : gmap N (gmap string entry)) s1 s2 et :
  (∀ e, e ∈ events s1 ↔ e ∈ events s2) →
  any EVENTS s1 et = any EVENTS s2 et.
Proof.
  intros Hev. apply eq_true_iff_eq. unfold any. rewrite !any_loop_true.
  split; intros (e & He & ?); exists e; split; try done; by apply Hev.
Qed.

(** C6.  Whenever [to_msg] returns, feeding its records to [add_from_msg]
    reproduces the active identifiers: on a new [Events] object the active
    list is the original list itself, on the object the records came from
    the list is doubled and has the same members; in both cases [any]
    answers every event type as it did on the original. *)
Theorem to_msg_add_from_msg_round_trip (EVENTS : gmap N (gmap string entry))
    (s : Events) (msgs : list CarEvent) :
  to_msg EVENTS s = inr msgs →
  let imported := add_from_msg msgs (Events_init EVENTS) in
  let doubled := add_from_msg msgs s in
  events imported = events s ∧
  (∀ e, e ∈ events imported ↔ e ∈ events s) ∧
  (∀ e, e ∈ events doubled ↔ e ∈ events s) ∧
  (∀ et, any EVENTS imported et = any EVENTS s et) ∧
  (∀ et, any EVENTS doubled et = any EVENTS s et).
Proof.
  intros Hmsgs%to_msg_names imported doubled.
  assert (H1 : events imported = events s) by (simpl; by rewrite Hmsgs).
  assert (H2 : ∀ e, e ∈ events doubled ↔ e ∈ events s).
  { intros e. simpl. rewrite Hmsgs, elem_of_app. tauto. }
  split; [done|]. split; [by rewrite H1|]. split; [done|].
  split; intros et; apply any_ext; [by rewrite H1|done].
Qed.

(** The instance of [to_msg_add_from_msg_round_trip] on the excerpt. *)
Lemma to_msg_add_from_msg_round_trip_witness :
  let s := push [EventName.reverseGear; EventName.gasUnavailable;
                 EventName.pcmEnable] (Events_init EVENTS_excerpt) in
  ∃ msgs,
    to_msg EVENTS_excerpt s = inr msgs ∧
    events (add_from_msg msgs (Events_init EVENTS_excerpt)) = events s ∧
    ∀ et, any EVENTS_excerpt (add_from_msg msgs s) et =
          any EVENTS_excerpt s et.
Proof.
  intros s.
  destruct (to_msg EVENTS_excerpt s) as [x|msgs] eqn:Hmsgs;
    [vm_compute in Hmsgs; discriminate Hmsgs|].
  exists msgs. split; [reflexivity|].
  destruct (to_msg_add_from_msg_round_trip EVENTS_excerpt s msgs Hmsgs)
    as (H1 & _ & _ & _ & H5).
  split; [exact H1|exact H5].
Defined.

(** ** [to_msg] reads the keys of the catalog only *)






(** ** Ceiling and floor *)

Lemma ceiling_floor (q : Q) :
  (inject_Z (Qfloor q) < q)%Q → Qceiling q = Qfloor q + 1.
Proof.
  intros Hlt.
  pose proof (Qle_ceiling q) as H1. pose proof (Qceiling_lt q) as H2.
  pose proof (Qlt_floor q) as H3.
  assert (Qfloor q < Qceiling q).
  { rewrite Zlt_Qlt. eapply Qlt_le_trans; eauto. }
  assert (Qceiling q - 1 < Qfloor q + 1).
  { rewrite Zlt_Qlt. eapply Qlt_trans; eauto. }
  lia.
Qed.

(** ** The eligibility test in terms of the ceiling *)

Lemma Qle_ceiling_iff (q : Q) (n : Z) :
  (q <= inject_Z n)%Q ↔ Qceiling q ≤ n.
Proof.
  split.
  - intros H. apply Qceiling_resp_le in H. by rewrite Qceiling_Z in H.
  - intros H. eapply Qle_trans; [apply Qle_ceiling|].
    by rewrite <- Zle_Qle.
Qed.

Lemma Qle_mult_div (D T q : Q) :
  (0 < T)%Q → (D <= T * q)%Q ↔ (D / T <= q)%Q.
Proof.
  intros HT. split.
  - intros H. apply Qle_shift_div_r; [done|]. by rewrite Qmult_comm.
  - intros H. apply (Qmult_le_r _ _ T HT) in H.
    rewrite Qmult_comm in H. rewrite Qmult_div_r in H.
    + by rewrite Qmult_comm in H.
    + intros Heq. rewrite Heq in HT. by apply Qlt_irrefl in HT.
Qed.

(** [DT_CTRL * n >= creation_delay] holds from tick
    [ceil(creation_delay / DT_CTRL)] on. *)
Lemma eligible_from_ceiling (D T : Q) (n : Z) :
  (0 < T)%Q →
  Qle_bool D (T * inject_Z n) = true ↔ Qceiling (D / T) ≤ n.
Proof.
  intros HT. by rewrite Qle_bool_iff, Qle_mult_div, Qle_ceiling_iff.
Qed.

(** Once eligible, eligible on the next tick. *)
Lemma eligible_next (D T : Q) (v : Z) :
  (0 <= T)%Q →
  Qle_bool D (T * inject_Z (v + 1)) = true →
  Qle_bool D (T * inject_Z (v + 1 + 1)) = true.
Proof.
  rewrite !Qle_bool_iff. intros HT H. eapply Qle_trans; [exact H|].
  rewrite !(Qmult_comm T). apply Qmult_le_compat_r; [|done].
  rewrite <- Zle_Qle. lia.
Qed.

(** ** [Events.create_alerts] *)

Lemma stamp_stamp ty et ty' et' a :
  stamp ty et (stamp ty' et' a) = stamp ty et a.
Proof. done. Qed.

Lemma stamp_id ty et a :
  alert_type a = ty → event_type a = Some et → stamp ty et a = a.
Proof. destruct a; simpl; by intros -> ->. Qed.

Lemma unstamp_stamp ty et a : unstamp (stamp ty et a) = unstamp a.
Proof. done. Qed.

Lemma creation_delay_stamp ty et a :
  creation_delay (stamp ty et a) = creation_delay a.
Proof. done. Qed.

Section create_alerts_facts.

Variable DT_CTRL : Q.
Variable EVENT_NAME : gmap N string.

Implicit Types (EVENTS : gmap N (gmap string entry)) (s : Events).

(** [resolve], case by case. *)
Lemma resolve_eq s callback_args e et ret EVENTS :
  resolve DT_CTRL EVENT_NAME s callback_args e et ret EVENTS =
  match EVENTS !! e with
  | None => (inl KeyError, EVENTS)
  | Some tys =>
      match tys !! et with
      | None => (inl KeyError, EVENTS)
      | Some (Static a) =>
          match events_prev s !! e with
          | None => (inl KeyError, EVENTS)
          | Some v =>
              if Qle_bool (creation_delay a) (DT_CTRL * inject_Z (v + 1))
              then match EVENT_NAME !! e with
                   | None => (inl KeyError, EVENTS)
                   | Some nm =>
                       (inr (ret ++ [InCatalog e et]),
                        <[e := <[et := Static (stamp (nm +:+ "/" +:+ et) et a)]> tys]>
                          EVENTS)
                   end
              else (inr ret, EVENTS)
          end
      | Some (Callback f) =>
          match f callback_args with
          | inl x => (inl x, EVENTS)
          | inr a =>
              match events_prev s !! e with
              | None => (inl KeyError, EVENTS)
              | Some v =>
                  if Qle_bool (creation_delay a)
                              (DT_CTRL * inject_Z (v + 1))
                  then match EVENT_NAME !! e with
                       | None => (inl KeyError, EVENTS)
                       | Some nm =>
                           (inr (ret ++ [Fresh (stamp (nm +:+ "/" +:+ et) et a)]),
                            EVENTS)
                       end
                  else (inr ret, EVENTS)
              end
          end
      end
  end.
Proof.
  unfold resolve, mbind, M_bind, EVENTS_getitem.
  destruct (EVENTS !! e) as [tys|] eqn:He; [|done].
  unfold getitem at 1. destruct (tys !! et) as [[a|f]|] eqn:Het; [| |done].
  - unfold mret, M_ret, getitem at 1.
    destruct (events_prev s !! e) as [v|]; [|done].
    unfold mret, M_ret, read, deref. rewrite He. simpl. rewrite Het.
    destruct (Qle_bool _ _); [|done].
    unfold getitem. destruct (EVENT_NAME !! e) as [nm|]; [|done].
    unfold mret, M_ret, set_stamp. by rewrite He, Het.
  - unfold mbind, M_bind, mret, M_ret, lift.
    destruct (f callback_args) as [x|a]; [done|].
    unfold getitem at 1.
    destruct (events_prev s !! e) as [v|]; [|done].
    unfold mret, M_ret, read, deref.
    destruct (Qle_bool _ _); [|done].
    unfold getitem. destruct (EVENT_NAME !! e) as [nm|]; [|done].
    done.
Qed.

(** *** Stores reached by stamping *)

Lemma entry_stamped_refl nm et en : entry_stamped nm et en en.
Proof. by left. Qed.

Lemma stamped_refl EVENTS : stamped EVENT_NAME EVENTS EVENTS.
Proof.
  intros e. destruct (EVENTS !! e) as [tys|]; constructor.
  intros et. destruct (tys !! et); constructor. apply entry_stamped_refl.
Qed.

Lemma stamped_lookup EVENTS0 EVENTS e tys :
  stamped EVENT_NAME EVENTS0 EVENTS → EVENTS !! e = Some tys →
  ∃ tys0, EVENTS0 !! e = Some tys0 ∧
          ∀ et, option_Forall2 (entry_stamped (EVENT_NAME !! e) et)
                  (tys0 !! et) (tys !! et).
Proof.
  intros Hst He. specialize (Hst e). rewrite He in Hst.
  inversion Hst; subst. eauto.
Qed.

Lemma stamped_lookup_None EVENTS0 EVENTS e :
  stamped EVENT_NAME EVENTS0 EVENTS →
  EVENTS0 !! e = None → EVENTS !! e = None.
Proof.
  intros Hst He. specialize (Hst e). rewrite He in Hst. by inversion Hst.
Qed.

(** One pair of attribute writes keeps the store among those reached by
    stamping. *)
Lemma stamped_write EVENTS0 EVENTS e et tys a nm :
  stamped EVENT_NAME EVENTS0 EVENTS →
  EVENTS !! e = Some tys → tys !! et = Some (Static a) →
  EVENT_NAME !! e = Some nm →
  stamped EVENT_NAME EVENTS0
    (<[e := <[et := Static (stamp (nm +:+ "/" +:+ et) et a)]> tys]> EVENTS).
Proof.
  intros Hst He Het Hnm e'. destruct (decide (e' = e)) as [->|Hne].
  - rewrite lookup_insert_eq.
    destruct (stamped_lookup _ _ _ _ Hst He) as (tys0 & -> & Htys).
    constructor. intros et'. destruct (decide (et' = et)) as [->|Hne'].
    + rewrite lookup_insert_eq. specialize (Htys et). rewrite Het in Htys.
      inversion Htys as [en0 en Hen|]; subst. constructor.
      right. destruct Hen as [<-|(a0 & n & -> & Hn & [= ->])].
      * exists a, nm. by rewrite Hnm.
      * exists a0, nm. rewrite Hnm in Hn. injection Hn as ->.
        by rewrite Hnm.
    + rewrite lookup_insert_ne by done. apply Htys.
  - rewrite lookup_insert_ne by done. apply Hst.
Qed.


(** What a pair contributes does not depend on earlier stamps. *)
Lemma pair_alert_stamped EVENTS0 EVENTS s callback_args e et :
  stamped EVENT_NAME EVENTS0 EVENTS →
  pair_alert DT_CTRL EVENT_NAME s callback_args EVENTS e et =
  pair_alert DT_CTRL EVENT_NAME s callback_args EVENTS0 e et.
Proof.
  intros Hst. unfold pair_alert. specialize (Hst e).
  destruct Hst as [tys0 tys Htys|]; [|done]. simpl.
  specialize (Htys et). destruct Htys as [en0 en Hen|]; [|done]. simpl.
  destruct Hen as [->|(a0 & n & -> & Hn & ->)]; [done|]. simpl.
  destruct (events_prev s !! e) as [v|]; [|done]. simpl.
  destruct (Qle_bool _ _); [|done].
  by destruct (EVENT_NAME !! e).
Qed.

(** A reference returned earlier still holds its alert after a later
    pair of writes. *)
Lemma ref_holds_write EVENTS e et tys a nm r b :
  EVENTS !! e = Some tys → tys !! et = Some (Static a) →
  EVENT_NAME !! e = Some nm →
  ref_holds EVENT_NAME EVENTS r b →
  ref_holds EVENT_NAME
    (<[e := <[et := Static (stamp (nm +:+ "/" +:+ et) et a)]> tys]> EVENTS)
    r b.
Proof.
  intros He Het Hnm [Hd Hk]. split; [|done].
  destruct r as [e' et'|b']; [|done]. simpl in *.
  destruct (decide (e' = e)) as [->|Hne].
  - rewrite lookup_insert_eq. rewrite He in Hd. simpl in *.
    destruct (decide (et' = et)) as [->|Hne'].
    + rewrite lookup_insert_eq. rewrite Het in Hd. injection Hd as ->.
      destruct Hk as (n & Hn & Hty & Hety).
      rewrite Hnm in Hn. injection Hn as <-.
      by rewrite stamp_id.
    + by rewrite lookup_insert_ne.
  - by rewrite lookup_insert_ne.
Qed.

(** *** The loops *)

Lemma resolve_stamped EVENTS0 s callback_args e et ret EVENTS :
  stamped EVENT_NAME EVENTS0 EVENTS →
  stamped EVENT_NAME EVENTS0
    (resolve DT_CTRL EVENT_NAME s callback_args e et ret EVENTS).2.
Proof.
  intros Hst. rewrite resolve_eq.
  destruct (EVENTS !! e) as [tys|] eqn:He; [|done].
  destruct (tys !! et) as [[a|f]|] eqn:Het; [| |done].
  - destruct (events_prev s !! e); [|done].
    destruct (Qle_bool _ _); [|done].
    destruct (EVENT_NAME !! e) eqn:Hnm; [|done].
    simpl. by eapply stamped_write.
  - destruct (f callback_args); [done|].
    destruct (events_prev s !! e); [|done].
    destruct (Qle_bool _ _); [|done].
    by destruct (EVENT_NAME !! e).
Qed.

Lemma resolve_ok EVENTS0 s callback_args e et ret EVENTS ret' EVENTS' acc :
  resolve DT_CTRL EVENT_NAME s callback_args e et ret EVENTS
    = (inr ret', EVENTS') →
  stamped EVENT_NAME EVENTS0 EVENTS →
  Forall2 (ref_holds EVENT_NAME EVENTS) ret acc →
  Forall2 (ref_holds EVENT_NAME EVENTS') ret'
    (acc ++ option_list
              (pair_alert DT_CTRL EVENT_NAME s callback_args EVENTS0 e et)).
Proof.
  intros Hres Hst Hacc.
  rewrite <- (pair_alert_stamped _ _ _ _ _ _ Hst).
  revert Hres. rewrite resolve_eq. unfold pair_alert.
  destruct (EVENTS !! e) as [tys|] eqn:He; [|done]. simpl.
  destruct (tys !! et) as [[a|f]|] eqn:Het; [| |done]; simpl.
  - destruct (events_prev s !! e) as [v|]; [|done]. simpl.
    destruct (Qle_bool _ _).
    + destruct (EVENT_NAME !! e) as [nm|] eqn:Hnm; [|done]. simpl.
      intros [= <- <-]. apply Forall2_app.
      * eapply Forall2_impl; [exact Hacc|]. intros r b.
        by apply ref_holds_write.
      * constructor; [|constructor]. split.
        -- unfold deref. rewrite lookup_insert_eq. simpl.
           by rewrite lookup_insert_eq.
        -- by exists nm.
    + intros [= <- <-]. simpl. by rewrite app_nil_r.
  - destruct (f callback_args) as [x|a]; [done|]. simpl.
    destruct (events_prev s !! e) as [v|]; [|done]. simpl.
    destruct (Qle_bool _ _).
    + destruct (EVENT_NAME !! e) as [nm|] eqn:Hnm; [|done]. simpl.
      intros [= <- <-]. apply Forall2_app; [done|].
      by constructor; [|constructor].
    + intros [= <- <-]. simpl. by rewrite app_nil_r.
Qed.

Lemma for_event_types_stamped EVENTS0 s callback_args e types ets ret
    EVENTS :
  stamped EVENT_NAME EVENTS0 EVENTS →
  stamped EVENT_NAME EVENTS0
    (for_event_types DT_CTRL EVENT_NAME s callback_args e types ets ret
       EVENTS).2.
Proof.
  revert ret EVENTS. induction ets as [|et ets IH]; intros ret EVENTS Hst;
    [done|].
  cbn [for_event_types]. unfold mbind, M_bind. case_bool_decide.
  - pose proof (resolve_stamped _ s callback_args e et ret _ Hst) as Hst'.
    destruct (resolve _ _ _ _ _ _ _ _) as [[x|ret1] EVENTS1]; [done|].
    by apply IH.
  - by apply IH.
Qed.

Lemma for_event_types_ok EVENTS0 s callback_args e types ets ret EVENTS
    ret' EVENTS' acc :
  for_event_types DT_CTRL EVENT_NAME s callback_args e types ets ret EVENTS
    = (inr ret', EVENTS') →
  stamped EVENT_NAME EVENTS0 EVENTS →
  (∀ et, et ∈ types ↔ is_Some (EVENTS0 !! e ≫= (.!! et))) →
  Forall2 (ref_holds EVENT_NAME EVENTS) ret acc →
  Forall2 (ref_holds EVENT_NAME EVENTS') ret'
    (acc ++ omap (pair_alert DT_CTRL EVENT_NAME s callback_args EVENTS0 e)
                 ets).
Proof.
  intros Hloop Hst Htypes. revert ret EVENTS acc Hloop Hst.
  induction ets as [|et ets IH]; intros ret EVENTS acc Hloop Hst Hacc.
  - injection Hloop as <- <-. simpl. by rewrite app_nil_r.
  - cbn [for_event_types] in Hloop. unfold mbind, M_bind in Hloop.
    case_bool_decide as Hin.
    + pose proof (resolve_stamped _ s callback_args e et ret _ Hst) as Hst'.
      destruct (resolve _ _ _ _ _ _ _ _) as [[x|ret1] EVENTS1] eqn:Hres;
        [done|].
      pose proof (resolve_ok _ _ _ _ _ _ _ _ _ _ Hres Hst Hacc) as Hacc1.
      specialize (IH _ _ _ Hloop Hst' Hacc1).
      rewrite <- app_assoc in IH. simpl.
      by destruct (pair_alert _ _ _ _ _ _ _).
    + specialize (IH _ _ _ Hloop Hst Hacc). simpl.
      assert (pair_alert DT_CTRL EVENT_NAME s callback_args EVENTS0 e et
              = None) as ->; [|done].
      unfold pair_alert. rewrite Htypes in Hin.
      destruct (EVENTS0 !! e ≫= (.!! et)); [|done].
      destruct Hin. by eexists.
Qed.

Lemma for_events_stamped EVENTS0 s callback_args ets es ret EVENTS :
  stamped EVENT_NAME EVENTS0 EVENTS →
  stamped EVENT_NAME EVENTS0
    (for_events DT_CTRL EVENT_NAME s callback_args ets es ret EVENTS).2.
Proof.
  revert ret EVENTS. induction es as [|e es IH]; intros ret EVENTS Hst;
    [done|].
  cbn [for_events]. unfold mbind, M_bind, EVENTS_getitem.
  destruct (EVENTS !! e) as [tys|]; [|done].
  pose proof (for_event_types_stamped _ s callback_args e (dom tys) ets
                ret _ Hst) as Hst'.
  destruct (for_event_types _ _ _ _ _ _ _ _ _) as [[x|ret1] EVENTS1];
    [done|].
  by apply IH.
Qed.

Lemma for_events_ok EVENTS0 s callback_args ets es ret EVENTS ret' EVENTS'
    acc :
  for_events DT_CTRL EVENT_NAME s callback_args ets es ret EVENTS
    = (inr ret', EVENTS') →
  stamped EVENT_NAME EVENTS0 EVENTS →
  Forall2 (ref_holds EVENT_NAME EVENTS) ret acc →
  Forall2 (ref_holds EVENT_NAME EVENTS') ret'
    (acc ++ (e ← es;
             omap (pair_alert DT_CTRL EVENT_NAME s callback_args EVENTS0 e)
                  ets)).
Proof.
  revert ret EVENTS acc. induction es as [|e es IH];
    intros ret EVENTS acc Hloop Hst Hacc.
  - injection Hloop as <- <-. simpl. by rewrite app_nil_r.
  - cbn [for_events] in Hloop.
    unfold mbind at 1 2, M_bind, EVENTS_getitem in Hloop.
    destruct (EVENTS !! e) as [tys|] eqn:He; [|done].
    pose proof (for_event_types_stamped _ s callback_args e (dom tys) ets
                  ret _ Hst) as Hst'.
    destruct (for_event_types _ _ _ _ _ _ _ _ _) as [[x|ret1] EVENTS1]
      eqn:Hinner; [done|].
    simpl in Hst'.
    assert (Htypes : ∀ et, et ∈ dom tys ↔
                           is_Some (EVENTS0 !! e ≫= (.!! et))).
    { intros et. rewrite elem_of_dom.
      destruct (stamped_lookup _ _ _ _ Hst He) as (tys0 & -> & Htys).
      simpl. specialize (Htys et).
      destruct Htys; split; intros [? ?]; by eauto. }
    pose proof (for_event_types_ok _ _ _ _ _ _ _ _ _ _ _ Hinner Hst Htypes
                  Hacc) as Hacc1.
    specialize (IH _ _ _ Hloop Hst' Hacc1).
    rewrite <- app_assoc in IH. exact IH.
Qed.

Lemma ref_holds_contents EVENTS ret acc :
  Forall2 (ref_holds EVENT_NAME EVENTS) ret acc → contents EVENTS ret = acc.
Proof.
  unfold contents. induction 1 as [|r a ret acc [Hd _] _ IH]; [done|].
  cbn. rewrite Hd. cbn. by f_equal.
Qed.

(** Whenever [create_alerts] returns, the list it returns holds, pair by
    pair in the order of the two loops, the alerts of [pair_alert]; the
    store it leaves is the given one up to stamps. *)
Lemma create_alerts_contents s ets callback_args EVENTS ret EVENTS' :
  create_alerts DT_CTRL EVENT_NAME s ets callback_args EVENTS
    = (inr ret, EVENTS') →
  contents EVENTS' ret =
    expected_alerts DT_CTRL EVENT_NAME s ets (default [] callback_args)
      EVENTS ∧
  stamped EVENT_NAME EVENTS EVENTS'.
Proof.
  unfold create_alerts. intros Hloop. split.
  - apply ref_holds_contents.
    exact (for_events_ok EVENTS _ _ _ _ _ _ _ _ [] Hloop
             (stamped_refl _) (List.Forall2_nil _)).
  - pose proof (for_events_stamped EVENTS s (default [] callback_args) ets
                  (events s) [] _ (stamped_refl _)) as Hst.
    by rewrite Hloop in Hst.
Qed.


(** *** Identifiers without a catalog entry *)

Lemma for_events_unknown s callback_args ets es ret EVENTS e :
  e ∈ es → EVENTS !! e = None →
  ∃ x, (for_events DT_CTRL EVENT_NAME s callback_args ets es ret
          EVENTS).1 = inl x.
Proof.
  revert ret EVENTS. induction es as [|e' es IH]; intros ret EVENTS Hin He.
  - by apply elem_of_nil in Hin.
  - cbn [for_events]. unfold mbind, M_bind, EVENTS_getitem.
    destruct (EVENTS !! e') as [tys|] eqn:He'; [|by eexists].
    pose proof (for_event_types_stamped EVENTS s callback_args e' (dom tys)
                  ets ret _ (stamped_refl _)) as Hst.
    destruct (for_event_types _ _ _ _ _ _ _ _ _) as [[x|ret1] EVENTS1];
      [by eexists|].
    apply elem_of_cons in Hin as [->|Hin]; [congruence|].
    apply IH; [done|]. by eapply stamped_lookup_None.
Qed.

(** [create_alerts] raises as soon as an identifier of the active list has
    no catalog entry: [EVENTS[e]] has no default. *)
Lemma create_alerts_unknown_raises s ets callback_args EVENTS e :
  e ∈ events s → EVENTS !! e = None →
  ∃ x, (create_alerts DT_CTRL EVENT_NAME s ets callback_args EVENTS).1
       = inl x.
Proof. apply for_events_unknown. Qed.

(** An unknown identifier at the head of the list raises [KeyError]
    before anything is written. *)
Lemma create_alerts_unknown_first s ets callback_args EVENTS e es :
  events s = e :: es → EVENTS !! e = None →
  create_alerts DT_CTRL EVENT_NAME s ets callback_args EVENTS
  = (inl KeyError, EVENTS).
Proof.
  intros Hev He. unfold create_alerts. rewrite Hev. cbn [for_events].
  unfold mbind, M_bind, EVENTS_getitem. by rewrite He.
Qed.

(** *** What the writes leave alone *)

Lemma stamped_get_types_dom EVENTS0 EVENTS e :
  stamped EVENT_NAME EVENTS0 EVENTS →
  dom (get_types EVENTS e) = dom (get_types EVENTS0 e).
Proof.
  intros Hst. unfold get_types. specialize (Hst e).
  destruct Hst as [tys0 tys Htys|]; [|done]. simpl.
  apply set_eq. intros et. rewrite !elem_of_dom.
  specialize (Htys et). destruct Htys; split; intros [? ?]; by eauto.
Qed.


(** C7, as the code has it.  [add] appends: a second [add] of the same
    identifier leaves the members of the active list, and with them every
    later answer of [any], as they are after the first; but [__len__]
    counts the duplicate, [to_msg] emits one more record for it, and
    [create_alerts] returns the identifier's alerts once more. *)
Theorem add_twice_appends (EVENTS : gmap N (gmap string entry)) s
    (e : N) (static : bool) :
  let once := add e static s in
  let twice := add e static once in
  (∀ e', e' ∈ events twice ↔ e' ∈ events once) ∧
  (∀ ops et, any EVENTS (run ops twice) et = any EVENTS (run ops once) et) ∧
  len twice = S (len once) ∧
  (∀ msgs, to_msg EVENTS once = inr msgs →
     ∃ m, to_msg_event EVENTS e = inr m ∧
          to_msg EVENTS twice = inr (msgs ++ [m])) ∧
  (∀ ets callback_args ret1 EVENTS1 ret2 EVENTS2,
     create_alerts DT_CTRL EVENT_NAME once ets callback_args EVENTS
       = (inr ret1, EVENTS1) →
     create_alerts DT_CTRL EVENT_NAME twice ets callback_args EVENTS
       = (inr ret2, EVENTS2) →
     contents EVENTS2 ret2 =
       contents EVENTS1 ret1 ++
       omap (pair_alert DT_CTRL EVENT_NAME once (default [] callback_args)
               EVENTS e) ets).
Proof.
  intros once twice. split; [|split; [|split; [|split]]].
  - intros e'. simpl. rewrite !elem_of_app, !list_elem_of_singleton. tauto.
  - intros ops et. apply any_ext.
    assert (Hinv : ∀ s1 s2,
              (∀ x, x ∈ events s1 ↔ x ∈ events s2) →
              (∀ x, x ∈ static_events s1 ↔ x ∈ static_events s2) →
              ∀ x, x ∈ events (run ops s1) ↔ x ∈ events (run ops s2)).
    { induction ops as [|o ops IH]; intros s1 s2 Hev Hst; [done|].
      simpl. apply IH; destruct o as [e1 [|]| |msgs]; simpl; intros x;
        rewrite ?elem_of_app, ?Hev, ?Hst; tauto. }
    apply Hinv; intros x; simpl; destruct static;
      rewrite ?elem_of_app, ?list_elem_of_singleton; tauto.
  - unfold len. simpl. rewrite !length_app. simpl. lia.
  - intros msgs Hmsgs. pose proof (to_msg_records _ _ _ Hmsgs) as Hrec.
    simpl in Hrec. apply Forall2_app_inv_l in Hrec
      as (ms & ms1 & _ & Hm & _).
    apply Forall2_cons_inv_l in Hm as (m & ? & Hm & _ & ->).
    exists m. split; [done|]. unfold to_msg.
    change (events twice) with (events once ++ [e]).
    apply (to_msg_loop_complete EVENTS (events once ++ [e]) [] (msgs ++ [m])).
    apply Forall2_app; [by apply to_msg_records|].
    by constructor.
  - intros ets callback_args ret1 EVENTS1 ret2 EVENTS2 H1 H2.
    apply create_alerts_contents in H1 as [-> _].
    apply create_alerts_contents in H2 as [-> _].
    unfold expected_alerts.
    change (events twice) with (events once ++ [e]).
    rewrite bind_app. f_equal. simpl. by rewrite app_nil_r.
Qed.

(** *** Consecutive ticks with one identifier and one event type *)

Lemma control_tick_state ids ets callback_args
    (st : Events * gmap N (gmap string entry)) :
  (control_tick DT_CTRL EVENT_NAME ids ets callback_args st).2 =
  (push ids (clear st.1),
   (create_alerts DT_CTRL EVENT_NAME (push ids (clear st.1)) ets
      callback_args st.2).2).
Proof. unfold control_tick. by destruct (create_alerts _ _ _ _ _ _). Qed.

Lemma control_tick_result ids ets callback_args
    (st : Events * gmap N (gmap string entry)) :
  (control_tick DT_CTRL EVENT_NAME ids ets callback_args st).1 =
  match create_alerts DT_CTRL EVENT_NAME (push ids (clear st.1)) ets
          callback_args st.2 with
  | (inl x, _) => inl x
  | (inr ret, EVENTS') => inr (contents EVENTS' ret)
  end.
Proof.
  unfold control_tick. by destruct (create_alerts _ _ _ _ _ _) as [[?|?] ?].
Qed.

Lemma pair_alert_eq s callback_args EVENTS e et en a v :
  EVENTS !! e ≫= (.!! et) = Some en →
  entry_alert en callback_args = Some a →
  events_prev s !! e = Some v →
  pair_alert DT_CTRL EVENT_NAME s callback_args EVENTS e et =
  if Qle_bool (creation_delay a) (DT_CTRL * inject_Z (v + 1))
  then (λ nm, stamp (nm +:+ "/" +:+ et) et a) <$> EVENT_NAME !! e
  else None.
Proof.
  intros Hen Ha Hv. unfold pair_alert. rewrite Hen. simpl.
  rewrite Ha. simpl. rewrite Hv. simpl.
  destruct (Qle_bool _ _); [|done]. by destruct (EVENT_NAME !! e).
Qed.

Lemma entry_alert_stamped EVENTS0 EVENTS callback_args e et en0 a0 :
  stamped EVENT_NAME EVENTS0 EVENTS →
  EVENTS0 !! e ≫= (.!! et) = Some en0 →
  entry_alert en0 callback_args = Some a0 →
  ∃ en a, EVENTS !! e ≫= (.!! et) = Some en ∧
          entry_alert en callback_args = Some a.
Proof.
  intros Hst Hen0 Ha0. specialize (Hst e).
  destruct Hst as [tys0 tys Htys|]; [|done]. simpl in *.
  specialize (Htys et). rewrite Hen0 in Htys.
  inversion Htys as [? en Hen|]; subst. exists en.
  destruct Hen as [->|(a1 & n & -> & _ & ->)]; simpl; eauto.
Qed.

(** In any state, whatever else is active: a pair that resolves to an
    alert with creation delay [D] contributes it exactly when the counter
    [v] of its identifier has reached [ceil(D / DT_CTRL) - 1], the test
    being evaluated on rationals. *)
Lemma pair_alert_debounce s callback_args EVENTS e et en a nm v :
  (0 < DT_CTRL)%Q →
  EVENTS !! e ≫= (.!! et) = Some en →
  entry_alert en callback_args = Some a →
  EVENT_NAME !! e = Some nm →
  events_prev s !! e = Some v →
  pair_alert DT_CTRL EVENT_NAME s callback_args EVENTS e et =
  if decide (Qceiling (creation_delay a / DT_CTRL) ≤ v + 1)
  then Some (stamp (nm +:+ "/" +:+ et) et a) else None.
Proof.
  intros HT Hen Ha Hnm Hv.
  rewrite (pair_alert_eq _ _ _ _ _ _ _ _ Hen Ha Hv), Hnm. simpl.
  case_decide as Hc.
  - apply (eligible_from_ceiling _ _ _ HT) in Hc. by rewrite Hc.
  - destruct (Qle_bool _ _) eqn:Hq; [|done].
    by apply (eligible_from_ceiling _ _ _ HT) in Hq.
Qed.

(** With a single active identifier whose pair resolves, [create_alerts]
    returns. *)
Lemma create_alerts_single s callback_args EVENTS id et en a v nm :
  events s = [id] →
  EVENTS !! id ≫= (.!! et) = Some en →
  entry_alert en (default [] callback_args) = Some a →
  events_prev s !! id = Some v →
  EVENT_NAME !! id = Some nm →
  ∃ ret EVENTS',
    create_alerts DT_CTRL EVENT_NAME s [et] callback_args EVENTS
    = (inr ret, EVENTS').
Proof.
  intros Hev Hen Ha Hv Hnm. unfold create_alerts. rewrite Hev.
  cbn [for_events for_event_types].
  unfold mbind, M_bind, EVENTS_getitem, mret, M_ret.
  destruct (EVENTS !! id) as [tys|] eqn:He; [|done]. simpl in Hen.
  rewrite bool_decide_eq_true_2 by (apply elem_of_dom; eauto).
  rewrite resolve_eq, He, Hen. destruct en as [a'|f]; simpl in Ha.
  - injection Ha as ->. rewrite Hv.
    destruct (Qle_bool _ _); [rewrite Hnm|]; eauto.
  - destruct (f _) as [x|a']; [done|]. injection Ha as ->. rewrite Hv.
    destruct (Qle_bool _ _); [rewrite Hnm|]; eauto.
Qed.

Lemma after_ticks_inv EVENTS id et callback_args n :
  is_Some (EVENTS !! id) →
  let st := after_ticks DT_CTRL EVENT_NAME [id] [et] callback_args n
              (Events_init EVENTS, EVENTS) in
  static_events st.1 = [] ∧
  events st.1 = match n with O => [] | S _ => [id] end ∧
  events_prev st.1 !! id = Some (Z.of_nat (pred n)) ∧
  stamped EVENT_NAME EVENTS st.2.
Proof.
  intros [tys Hid]. induction n as [|n IH]; simpl.
  - split; [done|]. split; [done|]. split; [|apply stamped_refl].
    by rewrite lookup_fmap, Hid.
  - destruct IH as (Hst & Hev & Hprev & Hstore).
    rewrite control_tick_state. cbn [fst snd].
    set (st := after_ticks _ _ _ _ _ _ _) in *.
    split; [by rewrite static_events_push|].
    split; [by rewrite events_push; simpl; rewrite Hst|].
    split; [|by apply for_events_stamped].
    rewrite events_prev_push, events_prev_clear, Hprev, Hev. simpl.
    destruct n as [|n].
    + by rewrite bool_decide_eq_false_2 by apply not_elem_of_nil.
    + rewrite bool_decide_eq_true_2 by (by apply list_elem_of_singleton).
      f_equal. simpl. lia.
Qed.

(** With [id] alone pushed on every tick and [et] alone requested, the
    query of tick [S n] returns: the stamped alert when the test
    [DT_CTRL * (S n) >= creation_delay] passes, the empty list when it
    does not. *)
Lemma alerts_at_tick_single (EVENTS : gmap N (gmap string entry)) (id : N)
    (et : string) (en : entry) (a : Alert) (nm : string)
    (callback_args : option (list PyArg)) (n : nat) :
  EVENTS !! id ≫= (.!! et) = Some en →
  entry_alert en (default [] callback_args) = Some a →
  EVENT_NAME !! id = Some nm →
  alerts_at_tick DT_CTRL EVENT_NAME [id] [et] callback_args n
    (Events_init EVENTS, EVENTS) =
  inr (if Qle_bool (creation_delay a) (DT_CTRL * inject_Z (Z.of_nat (S n)))
       then [stamp (nm +:+ "/" +:+ et) et a] else []).
Proof.
  intros Hen Ha Hnm.
  assert (Hid : is_Some (EVENTS !! id)).
  { destruct (EVENTS !! id); [by eexists|done]. }
  destruct (after_ticks_inv EVENTS id et callback_args n Hid)
    as (Hst & Hev & Hprev & Hstore).
  unfold alerts_at_tick. rewrite control_tick_result.
  set (st := after_ticks _ _ _ _ _ _ _) in *.
  set (s := push [id] (clear st.1)).
  assert (Hevs : events s = [id]).
  { unfold s. rewrite events_push. simpl. by rewrite Hst. }
  assert (Hv : events_prev s !! id = Some (Z.of_nat n)).
  { unfold s. rewrite events_prev_push, events_prev_clear, Hprev, Hev.
    simpl. destruct n as [|n].
    - by rewrite bool_decide_eq_false_2 by apply not_elem_of_nil.
    - rewrite bool_decide_eq_true_2 by (by apply list_elem_of_singleton).
      f_equal. simpl. lia. }
  destruct (entry_alert_stamped _ _ _ _ _ _ _ Hstore Hen Ha)
    as (en' & a' & Hen' & Ha').
  destruct (create_alerts_single s callback_args st.2 id et en' a' _ nm
              Hevs Hen' Ha' Hv Hnm) as (ret & EVENTS' & Hret).
  rewrite Hret. f_equal.
  apply create_alerts_contents in Hret as [-> _].
  unfold expected_alerts. rewrite Hevs. simpl. rewrite app_nil_r.
  rewrite (pair_alert_stamped _ _ _ _ _ _ Hstore).
  rewrite (pair_alert_eq _ _ _ _ _ _ _ _ Hen Ha Hv), Hnm. simpl.
  replace (Z.of_nat n + 1) with (Z.of_nat (S n)) by lia.
  by destruct (Qle_bool _ _).
Qed.

(** *** Two consecutive ticks *)

Lemma pair_alert_next s1 s2 callback_args EVENTS EVENTS1 e et a :
  (0 <= DT_CTRL)%Q →
  stamped EVENT_NAME EVENTS EVENTS1 →
  events_prev s2 = events_prev (clear s1) →
  e ∈ events s1 →
  pair_alert DT_CTRL EVENT_NAME s1 callback_args EVENTS e et = Some a →
  pair_alert DT_CTRL EVENT_NAME s2 callback_args EVENTS1 e et = Some a.
Proof.
  intros HT Hst Hprev He. rewrite (pair_alert_stamped _ _ _ _ _ _ Hst).
  unfold pair_alert. destruct (EVENTS !! e ≫= (.!! et)) as [en|]; [|done].
  simpl. destruct (entry_alert en callback_args) as [b|]; [|done]. simpl.
  rewrite Hprev, events_prev_clear.
  destruct (events_prev s1 !! e) as [v|]; [|done]. simpl.
  rewrite bool_decide_eq_true_2 by done.
  destruct (Qle_bool _ (DT_CTRL * inject_Z (v + 1))) eqn:Hq; [|done].
  by rewrite (eligible_next _ _ _ HT Hq).
Qed.

Lemma omap_sublist {A B} (f g : A → option B) (l : list A) :
  (∀ x b, x ∈ l → f x = Some b → g x = Some b) →
  omap f l `sublist_of` omap g l.
Proof.
  induction l as [|x l IH]; intros Hfg; [done|]. cbn.
  assert (IH' : omap f l `sublist_of` omap g l).
  { apply IH. intros y b Hy. apply Hfg. by right. }
  destruct (f x) as [b|] eqn:Hf.
  - rewrite (Hfg x b) by (done || left). by apply sublist_skip.
  - destruct (g x); [by apply sublist_cons|done].
Qed.

Lemma bind_sublist {A B} (f g : A → list B) (l : list A) :
  (∀ x, x ∈ l → f x `sublist_of` g x) →
  l ≫= f `sublist_of` l ≫= g.
Proof.
  induction l as [|x l IH]; intros Hfg; [done|]. cbn.
  apply sublist_app; [apply Hfg; left|]. apply IH.
  intros y Hy. apply Hfg. by right.
Qed.

(** References returned by an earlier call hold the same alerts after a
    later call. *)
Lemma resolve_holds s callback_args e et ret EVENTS r b :
  ref_holds EVENT_NAME EVENTS r b →
  ref_holds EVENT_NAME
    (resolve DT_CTRL EVENT_NAME s callback_args e et ret EVENTS).2 r b.
Proof.
  intros Hr. rewrite resolve_eq.
  destruct (EVENTS !! e) as [tys|] eqn:He; [|done].
  destruct (tys !! et) as [[a|f]|] eqn:Het; [| |done].
  - destruct (events_prev s !! e); [|done].
    destruct (Qle_bool _ _); [|done].
    destruct (EVENT_NAME !! e) eqn:Hnm; [|done].
    simpl. by apply ref_holds_write.
  - destruct (f callback_args); [done|].
    destruct (events_prev s !! e); [|done].
    destruct (Qle_bool _ _); [|done].
    by destruct (EVENT_NAME !! e).
Qed.

Lemma for_event_types_holds s callback_args e types ets ret EVENTS r b :
  ref_holds EVENT_NAME EVENTS r b →
  ref_holds EVENT_NAME
    (for_event_types DT_CTRL EVENT_NAME s callback_args e types ets ret
       EVENTS).2 r b.
Proof.
  revert ret EVENTS. induction ets as [|et ets IH]; intros ret EVENTS Hr;
    [done|].
  cbn [for_event_types]. unfold mbind, M_bind. case_bool_decide.
  - pose proof (resolve_holds s callback_args e et ret _ _ _ Hr) as Hr'.
    destruct (resolve _ _ _ _ _ _ _ _) as [[x|ret1] EVENTS1]; [done|].
    by apply IH.
  - by apply IH.
Qed.

Lemma for_events_holds s callback_args ets es ret EVENTS r b :
  ref_holds EVENT_NAME EVENTS r b →
  ref_holds EVENT_NAME
    (for_events DT_CTRL EVENT_NAME s callback_args ets es ret EVENTS).2 r b.
Proof.
  revert ret EVENTS. induction es as [|e es IH]; intros ret EVENTS Hr;
    [done|].
  cbn [for_events]. unfold mbind, M_bind, EVENTS_getitem.
  destruct (EVENTS !! e) as [tys|]; [|done].
  pose proof (for_event_types_holds s callback_args e (dom tys) ets ret
                _ _ _ Hr) as Hr'.
  destruct (for_event_types _ _ _ _ _ _ _ _ _) as [[x|ret1] EVENTS1];
    [done|].
  by apply IH.
Qed.

(** *** [alert_rate] is not read *)

Lemma resolve_set_alert_rate q s callback_args e et ret EVENTS :
  resolve DT_CTRL EVENT_NAME s callback_args e et
    (ref_set_alert_rate q <$> ret) (catalog_set_alert_rate q EVENTS) =
  outcome_set_alert_rate q
    (resolve DT_CTRL EVENT_NAME s callback_args e et ret EVENTS).
Proof.
  rewrite !resolve_eq. unfold outcome_set_alert_rate, catalog_set_alert_rate.
  rewrite lookup_fmap. destruct (EVENTS !! e) as [tys|] eqn:He; simpl;
    [|done].
  rewrite lookup_fmap. destruct (tys !! et) as [[a|f]|] eqn:Het; simpl;
    [| |done].
  - destruct (events_prev s !! e); [|done].
    destruct (Qle_bool _ _); [|done].
    destruct (EVENT_NAME !! e); [|done]. simpl.
    rewrite fmap_app. simpl. f_equal. by rewrite !fmap_insert.
  - destruct (f callback_args); [done|]. simpl.
    destruct (events_prev s !! e); [|done].
    destruct (Qle_bool _ _); [|done].
    destruct (EVENT_NAME !! e); [|done]. simpl.
    by rewrite fmap_app.
Qed.

Lemma for_event_types_set_alert_rate q s callback_args e types ets ret
    EVENTS :
  for_event_types DT_CTRL EVENT_NAME s callback_args e types ets
    (ref_set_alert_rate q <$> ret) (catalog_set_alert_rate q EVENTS) =
  outcome_set_alert_rate q
    (for_event_types DT_CTRL EVENT_NAME s callback_args e types ets ret
       EVENTS).
Proof.
  revert ret EVENTS. induction ets as [|et ets IH]; intros ret EVENTS;
    [done|].
  cbn [for_event_types]. unfold mbind, M_bind. case_bool_decide.
  - rewrite resolve_set_alert_rate.
    destruct (resolve _ _ _ _ _ _ _ _) as [[x|ret1] EVENTS1]; [done|].
    unfold outcome_set_alert_rate at 1. simpl. apply IH.
  - unfold mret, M_ret. apply IH.
Qed.

Lemma for_events_set_alert_rate q s callback_args ets es ret EVENTS :
  for_events DT_CTRL EVENT_NAME s callback_args ets es
    (ref_set_alert_rate q <$> ret) (catalog_set_alert_rate q EVENTS) =
  outcome_set_alert_rate q
    (for_events DT_CTRL EVENT_NAME s callback_args ets es ret EVENTS).
Proof.
  revert ret EVENTS. induction es as [|e es IH]; intros ret EVENTS;
    [done|].
  cbn [for_events]. unfold mbind, M_bind, EVENTS_getitem.
  unfold catalog_set_alert_rate at 1. rewrite lookup_fmap.
  destruct (EVENTS !! e) as [tys|]; simpl; [|done].
  rewrite dom_fmap_L, for_event_types_set_alert_rate.
  destruct (for_event_types _ _ _ _ _ _ _ _ _) as [[x|ret1] EVENTS1];
    [done|].
  unfold outcome_set_alert_rate at 1. simpl. apply IH.
Qed.

(** Overwriting every [alert_rate] of the catalog changes the outcome of
    [create_alerts] in that field alone: the same references are
    returned, in the same number and order, or the same exception is
    raised. *)
Lemma create_alerts_set_alert_rate q s ets callback_args EVENTS :
  create_alerts DT_CTRL EVENT_NAME s ets callback_args
    (catalog_set_alert_rate q EVENTS) =
  outcome_set_alert_rate q
    (create_alerts DT_CTRL EVENT_NAME s ets callback_args EVENTS).
Proof. apply (for_events_set_alert_rate q s _ ets (events s) []). Qed.

(** C9.  [alert_rate] plays no part in [create_alerts].  Take two
    consecutive ticks, the counters of the second being those [clear]
    leaves after the first, the tick period not negative, and the same
    event types and callback arguments; let both queries return.  For
    every identifier active on both ticks, an alert that one of its
    pairs contributes on the first tick is contributed by the same pair
    on the second with equal content, whatever its [alert_rate], and is
    in both returned lists; each list holds, pair by pair, at most one
    alert per visit of a pair.  When the active list is the same on both
    ticks the first list is a sublist of the second.  The references
    returned first still hold the same content after the second query.
    Overwriting every [alert_rate] of the catalog by any value leaves the
    outcome of the query as it is, up to that field. *)
Theorem alert_rate_inert (EVENTS : gmap N (gmap string entry))
    (s1 s2 : Events) (ets : list string)
    (callback_args : option (list PyArg))
    (ret1 ret2 : list alert_ref)
    (EVENTS1 EVENTS2 : gmap N (gmap string entry)) :
  (0 <= DT_CTRL)%Q →
  events_prev s2 = events_prev (clear s1) →
  create_alerts DT_CTRL EVENT_NAME s1 ets callback_args EVENTS
    = (inr ret1, EVENTS1) →
  create_alerts DT_CTRL EVENT_NAME s2 ets callback_args EVENTS1
    = (inr ret2, EVENTS2) →
  (contents EVENTS1 ret1 =
     e ← events s1;
     omap (pair_alert DT_CTRL EVENT_NAME s1 (default [] callback_args)
             EVENTS e) ets) ∧
  (contents EVENTS2 ret2 =
     e ← events s2;
     omap (pair_alert DT_CTRL EVENT_NAME s2 (default [] callback_args)
             EVENTS1 e) ets) ∧
  (∀ e et a,
     e ∈ events s1 → e ∈ events s2 → et ∈ ets →
     pair_alert DT_CTRL EVENT_NAME s1 (default [] callback_args) EVENTS
       e et = Some a →
     pair_alert DT_CTRL EVENT_NAME s2 (default [] callback_args) EVENTS1
       e et = Some a ∧
     a ∈ contents EVENTS1 ret1 ∧ a ∈ contents EVENTS2 ret2) ∧
  (events s2 = events s1 →
   contents EVENTS1 ret1 `sublist_of` contents EVENTS2 ret2) ∧
  contents EVENTS2 ret1 = contents EVENTS1 ret1 ∧
  (∀ q, create_alerts DT_CTRL EVENT_NAME s1 ets callback_args
          (catalog_set_alert_rate q EVENTS) =
        (inr (ref_set_alert_rate q <$> ret1),
         catalog_set_alert_rate q EVENTS1)).
Proof.
  intros HT Hprev H1 H2.
  pose proof (create_alerts_contents _ _ _ _ _ _ H1) as [Hc1 Hst1].
  pose proof (create_alerts_contents _ _ _ _ _ _ H2) as [Hc2 Hst2].
  unfold expected_alerts in Hc1, Hc2.
  assert (Hnext : ∀ e et a, e ∈ events s1 →
     pair_alert DT_CTRL EVENT_NAME s1 (default [] callback_args) EVENTS
       e et = Some a →
     pair_alert DT_CTRL EVENT_NAME s2 (default [] callback_args) EVENTS1
       e et = Some a).
  { intros e et a He. by apply pair_alert_next. }
  split; [done|]. split; [done|]. split; [|split; [|split]].
  - intros e et a He1 He2 Het Ha.
    pose proof (Hnext _ _ _ He1 Ha) as Ha2. split; [done|].
    rewrite Hc1, Hc2. split; apply list_elem_of_bind.
    + exists e. split; [|done]. apply list_elem_of_omap. eauto.
    + exists e. split; [|done]. apply list_elem_of_omap. eauto.
  - intros Hev. rewrite Hc1, Hc2, Hev. apply bind_sublist. intros e He.
    apply omap_sublist. intros et a _. by apply Hnext.
  - transitivity (expected_alerts DT_CTRL EVENT_NAME s1 ets
                    (default [] callback_args) EVENTS); [|by rewrite Hc1].
    apply ref_holds_contents.
    assert (Hh : Forall2 (ref_holds EVENT_NAME EVENTS1) ret1
                   (expected_alerts DT_CTRL EVENT_NAME s1 ets
                      (default [] callback_args) EVENTS)).
    { exact (for_events_ok EVENTS _ _ _ _ _ _ _ _ [] H1
               (stamped_refl _) (List.Forall2_nil _)). }
    eapply Forall2_impl; [exact Hh|]. intros r b Hr.
    pose proof (for_events_holds s2 (default [] callback_args) ets
                  (events s2) [] _ _ _ Hr) as Hr'.
    unfold create_alerts in H2. by rewrite H2 in Hr'.
  - intros q. rewrite create_alerts_set_alert_rate, H1. done.
Qed.

End create_alerts_facts.

(** * The engine on the excerpt *)

(** ** Debounce *)

(** C2, as the claim states it, fails on the code.  For [gasPressed] the
    creation delay is 1 s and the tick period 0.01 s, so
    [floor(D / T) = 100]; the claim has no alert on the first 100 ticks,
    but the query of tick 99 is the last that returns none and the query
    of tick 100 returns the alert. *)
Lemma debounce_floor_fails :
  ∃ a,
    EVENTS_excerpt !! EventName.gasPressed ≫= (.!! ET.PRE_ENABLE)
      = Some (Static a) ∧
    Qfloor (creation_delay a / DT_CTRL_100Hz) = 100 ∧
    alerts_at_tick DT_CTRL_100Hz EVENT_NAME_excerpt [EventName.gasPressed]
      [ET.PRE_ENABLE] None 98 (Events_init EVENTS_excerpt, EVENTS_excerpt)
    = inr [] ∧
    alerts_at_tick DT_CTRL_100Hz EVENT_NAME_excerpt [EventName.gasPressed]
      [ET.PRE_ENABLE] None 99 (Events_init EVENTS_excerpt, EVENTS_excerpt)
    = inr [stamp "gasPressed/preEnable" ET.PRE_ENABLE a].
Proof.
  eexists. split; [vm_compute; reflexivity|].
  split; [reflexivity|]. split; vm_compute; reflexivity.
Qed.

(** The binary64 test agrees with the rational one on the delays of the
    source at 100 Hz: the alert is returned from tick 100 on for a delay of
    [1.], from tick 50 on for [0.5] and from tick 30000 on for [300.]
    ([v] is the counter, one less than the tick). *)
Example eligible_binary64_delays :
  eligible_binary64 0.01 1 98 = false ∧ eligible_binary64 0.01 1 99 = true ∧
  eligible_binary64 0.01 0.5 48 = false ∧
  eligible_binary64 0.01 0.5 49 = true ∧
  eligible_binary64 0.01 300 29998 = false ∧
  eligible_binary64 0.01 300 29999 = true.
Proof. repeat split; reflexivity. Qed.

(** When [DT_CTRL] does not divide the delay, the first tick that returns
    the alert is [floor(D / DT_CTRL) + 1], as the claim has it. *)
Lemma eligible_from_floor (D T : Q) (n : Z) :
  (0 < T)%Q → (inject_Z (Qfloor (D / T)) < D / T)%Q →
  Qle_bool D (T * inject_Z n) = true ↔ Qfloor (D / T) < n.
Proof.
  intros HT Hq. rewrite (eligible_from_ceiling _ _ _ HT).
  rewrite (ceiling_floor _ Hq). lia.
Qed.

(** ** Unknown identifiers *)

(** C3 on the excerpt: [gasUnavailable] has no catalog entry.  [any] is
    false for every event type and [to_msg] emits a record without flags,
    but [create_alerts] raises [KeyError] for every list of event types
    and every callback arguments, where the claim has it return no alert:
    [create_alerts] indexes [EVENTS[e]], [any] and [to_msg] use
    [EVENTS.get(e, {})]. *)
Theorem create_alerts_unknown_identifier_raises
    (event_types : list string) (callback_args : option (list PyArg)) :
  let s := add EventName.gasUnavailable false (Events_init EVENTS_excerpt) in
  EVENTS_excerpt !! EventName.gasUnavailable = None ∧
  (∀ et, any EVENTS_excerpt s et = false) ∧
  to_msg EVENTS_excerpt s
    = inr [set_name EventName.gasUnavailable new_message] ∧
  create_alerts DT_CTRL_100Hz EVENT_NAME_excerpt s event_types callback_args
    EVENTS_excerpt = (inl KeyError, EVENTS_excerpt).
Proof.
  intros s. assert (He : EVENTS_excerpt !! EventName.gasUnavailable = None)
    by reflexivity.
  split; [exact He|]. split; [|split].
  - intros et. apply any_unknown. intros e Hin.
    by apply list_elem_of_singleton in Hin as ->.
  - reflexivity.
  - by apply (create_alerts_unknown_first _ _ s event_types callback_args
                EVENTS_excerpt EventName.gasUnavailable []).
Qed.

(** ** Duplicate pushes *)

(** C7, as the claim states it, fails on the code: after a second [add] of
    [startupOneplus] the length is 2 instead of 1, [to_msg] emits two
    records instead of one and [create_alerts] returns two references
    instead of one. *)
Lemma add_twice_is_observable :
  ∃ once twice,
    once = add EventName.startupOneplus false (Events_init EVENTS_excerpt) ∧
    twice = add EventName.startupOneplus false once ∧
    len once = 1%nat ∧ len twice = 2%nat ∧
    to_msg EVENTS_excerpt twice ≠ to_msg EVENTS_excerpt once ∧
    (create_alerts DT_CTRL_100Hz EVENT_NAME_excerpt once [ET.PERMANENT] None
       EVENTS_excerpt).1
    = inr [InCatalog EventName.startupOneplus ET.PERMANENT] ∧
    (create_alerts DT_CTRL_100Hz EVENT_NAME_excerpt twice [ET.PERMANENT] None
       EVENTS_excerpt).1
    = inr [InCatalog EventName.startupOneplus ET.PERMANENT;
           InCatalog EventName.startupOneplus ET.PERMANENT].
Proof.
  do 2 eexists. split; [reflexivity|]. split; [reflexivity|].
  split; [reflexivity|]. split; [reflexivity|]. split; [|split].
  - intros H. vm_compute in H. discriminate H.
  - vm_compute. reflexivity.
  - vm_compute. reflexivity.
Qed.

(** ** Writes to the catalog *)


(** ** Two ticks with a rate-limited alert *)

(** The instance of [alert_rate_inert] for [preLaneChangeLeft], whose
    alert has [alert_rate = 0.75]. *)
Lemma alert_rate_inert_witness :
  ∃ s1 s2 ret1 EVENTS1 ret2 EVENTS2,
    s1 = push [EventName.preLaneChangeLeft]
           (clear (Events_init EVENTS_excerpt)) ∧
    s2 = push [EventName.preLaneChangeLeft] (clear s1) ∧
    (0 <= DT_CTRL_100Hz)%Q ∧
    events_prev s2 = events_prev (clear s1) ∧
    create_alerts DT_CTRL_100Hz EVENT_NAME_excerpt s1 [ET.WARNING] None
      EVENTS_excerpt = (inr ret1, EVENTS1) ∧
    create_alerts DT_CTRL_100Hz EVENT_NAME_excerpt s2 [ET.WARNING] None
      EVENTS1 = (inr ret2, EVENTS2) ∧
    (∃ a, contents EVENTS1 ret1 = [a] ∧ contents EVENTS2 ret2 = [a] ∧
          (0 < alert_rate a)%Q) ∧
    (events s2 = events s1 →
     contents EVENTS1 ret1 `sublist_of` contents EVENTS2 ret2) ∧
    contents EVENTS2 ret1 = contents EVENTS1 ret1.
Proof.
  set (s1 := push [EventName.preLaneChangeLeft]
               (clear (Events_init EVENTS_excerpt))).
  set (s2 := push [EventName.preLaneChangeLeft] (clear s1)).
  set (o1 := create_alerts DT_CTRL_100Hz EVENT_NAME_excerpt s1 [ET.WARNING]
               None EVENTS_excerpt).
  set (o2 := create_alerts DT_CTRL_100Hz EVENT_NAME_excerpt s2 [ET.WARNING]
               None o1.2).
  set (r := [InCatalog EventName.preLaneChangeLeft ET.WARNING]).
  assert (HT : (0 <= DT_CTRL_100Hz)%Q) by discriminate.
  assert (Hprev : events_prev s2 = events_prev (clear s1)) by reflexivity.
  assert (H1 : o1 = (inr r, o1.2)) by (vm_compute; reflexivity).
  assert (H2 : o2 = (inr r, o2.2)) by (vm_compute; reflexivity).
  exists s1, s2, r, o1.2, r, o2.2.
  split; [reflexivity|]. split; [reflexivity|]. split; [exact HT|].
  split; [exact Hprev|]. split; [exact H1|].
  split; [exact H2|]. split.
  - eexists. split; [vm_compute; reflexivity|].
    split; [vm_compute; reflexivity|reflexivity].
  - destruct (alert_rate_inert DT_CTRL_100Hz EVENT_NAME_excerpt
                EVENTS_excerpt s1 s2 [ET.WARNING] None r r o1.2 o2.2
                HT Hprev H1 H2) as (_ & _ & _ & Hsub & Hsame & _).
    split; [exact Hsub|exact Hsame].
Defined.

(** * Further properties *)

(** ** Invariants of the [Events] object *)

Lemma dom_events_prev_clear s : dom (events_prev (clear s)) = dom (events_prev s).
Proof.
  apply set_eq. intros k. rewrite !elem_of_dom, events_prev_clear.
  apply fmap_is_Some.
Qed.

Lemma run_snoc ops o s : run (ops ++ [o]) s = run_op (run ops s) o.
Proof. unfold run. by rewrite foldl_app. Qed.

Lemma count_clears_snoc ops o :
  count_clears (ops ++ [o]) =
  count_clears ops + (if is_Clear o then 1 else 0).
Proof.
  unfold count_clears. rewrite filter_app, length_app.
  destruct o; simpl; lia.
Qed.

(** X1.  In every state reached from a new [Events] object by [add],
    [clear] and [add_from_msg], the keys of [events_prev] are the keys of
    the catalog, and every counter lies between 0 and the number of
    [clear] calls made. *)
Theorem events_prev_invariant (EVENTS : gmap N (gmap string entry))
    (ops : list op) :
  dom (events_prev (run ops (Events_init EVENTS))) = dom EVENTS ∧
  ∀ k v, events_prev (run ops (Events_init EVENTS)) !! k = Some v →
         0 ≤ v ≤ count_clears ops.
Proof.
  induction ops as [|o ops IH] using rev_ind.
  - split; [apply dom_fmap_L|]. intros k v. simpl. rewrite lookup_fmap.
    destruct (EVENTS !! k); [|done]. intros [= <-]. done.
  - destruct IH as [Hdom Hb]. rewrite run_snoc, count_clears_snoc.
    destruct o as [e st| |msgs]; cbn [run_op is_Clear].
    + split; [done|]. intros k v Hk. specialize (Hb k v Hk). lia.
    + split; [by rewrite dom_events_prev_clear|].
      intros k v. rewrite events_prev_clear.
      destruct (events_prev (run ops (Events_init EVENTS)) !! k) as [w|] eqn:Hw;
        [|done].
      specialize (Hb k w Hw). simpl. intros [= <-].
      case_bool_decide; lia.
    + split; [done|]. intros k v Hk. specialize (Hb k v Hk). lia.
Qed.

(** X2.  In every state reached from a new [Events] object the static
    identifiers are active: [static_events] is a sublist of [events]. *)
Theorem static_events_sublist_events (EVENTS : gmap N (gmap string entry))
    (ops : list op) :
  static_events (run ops (Events_init EVENTS))
    `sublist_of` events (run ops (Events_init EVENTS)).
Proof.
  induction ops as [|o ops IH] using rev_ind; [done|].
  rewrite run_snoc. destruct o as [e [|]| |msgs]; simpl.
  - by apply sublist_app.
  - by apply sublist_inserts_r.
  - done.
  - by apply sublist_inserts_r.
Qed.

Lemma after_resets_snoc ticks ids s :
  after_resets (ticks ++ [ids]) s = clear (push ids (after_resets ticks s)).
Proof. unfold after_resets. by rewrite foldl_app. Qed.

Lemma after_resets_events ticks s :
  events s = [] → static_events s = [] →
  events (after_resets ticks s) = [] ∧
  static_events (after_resets ticks s) = [].
Proof.
  intros Hev Hst. induction ticks as [|ids ticks IH] using rev_ind; [done|].
  rewrite after_resets_snoc. simpl. rewrite static_events_push. tauto.
Qed.

(** X3.  The counter of an identifier of the catalog is its current
    streak: after any run of ticks from a new [Events] object, each
    followed by its reset, [events_prev[id]] is the number of ticks at the
    end of the run in which [id] was pushed without a gap. *)
Theorem counter_is_streak (EVENTS : gmap N (gmap string entry)) (id : N)
    (ticks : list (list N)) :
  is_Some (EVENTS !! id) →
  events_prev (after_resets ticks (Events_init EVENTS)) !! id
  = Some (streak id ticks).
Proof.
  intros [tys Hid]. induction ticks as [|ids ticks IH] using rev_ind.
  - simpl. by rewrite lookup_fmap, Hid.
  - rewrite after_resets_snoc. unfold streak in *. rewrite reverse_snoc.
    cbn [streak_from_last].
    destruct (after_resets_events ticks (Events_init EVENTS) eq_refl eq_refl)
      as [Hev _].
    rewrite counter_after_tick by done. rewrite IH. simpl.
    by case_bool_decide.
Qed.

(** The instance of [counter_is_streak] on the excerpt. *)
Lemma counter_is_streak_witness :
  is_Some (EVENTS_excerpt !! EventName.reverseGear) ∧
  events_prev
    (after_resets [[EventName.reverseGear]; []; [EventName.reverseGear];
                   [EventName.gasPressed; EventName.reverseGear]]
       (Events_init EVENTS_excerpt)) !! EventName.reverseGear
  = Some 2.
Proof.
  assert (H : is_Some (EVENTS_excerpt !! EventName.reverseGear))
    by (eexists; reflexivity).
  split; [exact H|].
  exact (counter_is_streak EVENTS_excerpt EventName.reverseGear
           [[EventName.reverseGear]; []; [EventName.reverseGear];
            [EventName.gasPressed; EventName.reverseGear]] H).
Defined.

(** X4.  The counter of a static identifier grows by one with every
    reset: after [add(e, static=True)] and [n] calls of [clear] it is the
    counter before plus [n]. *)
Theorem static_counter_grows (s : Events) (e : N) (n : nat) :
  events_prev (Nat.iter n clear (add e true s)) !! e
  = (λ v, v + Z.of_nat n) <$> events_prev s !! e.
Proof.
  induction n as [|n IH].
  - simpl. destruct (events_prev s !! e); simpl; [f_equal; lia|done].
  - rewrite Nat.iter_succ, events_prev_clear, IH.
    rewrite bool_decide_eq_true_2 by apply static_event_survives_clears.
    destruct (events_prev s !! e); simpl; [f_equal; lia|done].
Qed.

(** X5.  [add_from_msg] is [add] without [static] for the name of every
    record, in order: it never makes an identifier static and leaves the
    counters alone. *)
Theorem add_from_msg_is_push (msgs : list CarEvent) (s : Events) :
  add_from_msg msgs s = push (map name msgs) s.
Proof.
  revert s. induction msgs as [|m msgs IH]; intros s.
  - destruct s. unfold add_from_msg. simpl. by rewrite app_nil_r.
  - simpl. rewrite <- IH. unfold add_from_msg, add. simpl.
    by rewrite <- app_assoc.
Qed.

(** ** [Alert.__gt__] *)

(** X6.  [__gt__] is a strict order that looks at [alert_priority] only:
    it is irreflexive and transitive, two alerts of equal priority are not
    ordered either way, and of two alerts of different priority exactly
    one is greater. *)
Theorem Alert_gt_strict_order (a b c : Alert) :
  Alert_gt a a = false ∧
  (Alert_gt a b = true → Alert_gt b c = true → Alert_gt a c = true) ∧
  (alert_priority a = alert_priority b →
   Alert_gt a b = false ∧ Alert_gt b a = false) ∧
  (alert_priority a ≠ alert_priority b →
   Alert_gt a b = negb (Alert_gt b a)).
Proof.
  unfold Alert_gt. split; [apply Z.ltb_irrefl|]. split; [|split].
  - rewrite !Z.ltb_lt. lia.
  - intros ->. by rewrite Z.ltb_irrefl.
  - intros Hne.
    assert (Priority_value (alert_priority a)
            ≠ Priority_value (alert_priority b)).
    { intros Heq. apply Hne.
      by destruct (alert_priority a), (alert_priority b). }
    destruct (Z.ltb_spec (Priority_value (alert_priority b))
                         (Priority_value (alert_priority a))),
             (Z.ltb_spec (Priority_value (alert_priority a))
                         (Priority_value (alert_priority b))); simpl; lia.
Qed.

(** ** [any] against [to_msg] *)

(** X7.  The flags of the records agree with [any]: whenever [to_msg]
    returns, [any] answers true for an event type exactly when some
    emitted record has the flag of that type set. *)
Theorem any_iff_flag (EVENTS : gmap N (gmap string entry)) (s : Events)
    (msgs : list CarEvent) (et : string) :
  to_msg EVENTS s = inr msgs →
  any EVENTS s et = true ↔ ∃ m, m ∈ msgs ∧ flag et m = true.
Proof.
  intros Hrec%to_msg_records. unfold any. rewrite any_loop_true. split.
  - intros (e & He & Het).
    apply list_elem_of_lookup in He as [i Hi].
    destruct (Forall2_lookup_l _ _ _ _ _ Hrec Hi) as (m & Hm & Hmsg).
    exists m. split; [by eapply list_elem_of_lookup_2|].
    by apply (to_msg_event_spec _ _ _ Hmsg).
  - intros (m & Hin & Hflag).
    apply list_elem_of_lookup in Hin as [i Hi].
    destruct (Forall2_lookup_r _ _ _ _ _ Hrec Hi) as (e & He & Hmsg).
    exists e. split; [by eapply list_elem_of_lookup_2|].
    by apply (to_msg_event_spec _ _ _ Hmsg).
Qed.

(** The instance of [any_iff_flag] on the excerpt. *)
Lemma any_iff_flag_witness :
  ∃ msgs,
    to_msg EVENTS_excerpt
      (push [EventName.gasUnavailable; EventName.reverseGear]
         (Events_init EVENTS_excerpt)) = inr msgs ∧
    (any EVENTS_excerpt
       (push [EventName.gasUnavailable; EventName.reverseGear]
          (Events_init EVENTS_excerpt)) ET.SOFT_DISABLE = true ↔
     ∃ m, m ∈ msgs ∧ flag ET.SOFT_DISABLE m = true).
Proof.
  destruct (to_msg EVENTS_excerpt
              (push [EventName.gasUnavailable; EventName.reverseGear]
                 (Events_init EVENTS_excerpt))) as [x|msgs] eqn:Hmsgs;
    [vm_compute in Hmsgs; discriminate Hmsgs|].
  exists msgs. split; [reflexivity|].
  exact (any_iff_flag EVENTS_excerpt _ msgs ET.SOFT_DISABLE Hmsgs).
Defined.

(** ** More on [Events.create_alerts] *)

Section create_alerts_more.

Variable DT_CTRL : Q.
Variable EVENT_NAME : gmap N string.

Implicit Types (EVENTS : gmap N (gmap string entry)) (s : Events).

Lemma entry_stamped_trans nm et en1 en2 en3 :
  entry_stamped nm et en1 en2 → entry_stamped nm et en2 en3 →
  entry_stamped nm et en1 en3.
Proof.
  intros [->|(a & n & -> & Hn & ->)] [->|(a' & n' & Ha' & Hn' & ->)].
  - by left.
  - right. eauto.
  - right. eauto.
  - injection Ha' as <-. right. exists a, n'. by rewrite stamp_stamp.
Qed.

Lemma stamped_trans EVENTS1 EVENTS2 EVENTS3 :
  stamped EVENT_NAME EVENTS1 EVENTS2 → stamped EVENT_NAME EVENTS2 EVENTS3 →
  stamped EVENT_NAME EVENTS1 EVENTS3.
Proof.
  intros H12 H23 e. specialize (H12 e). specialize (H23 e).
  destruct H12 as [tys1 tys2 Htys12|]; inversion H23 as [? tys3 Htys23|];
    subst; constructor.
  intros et. specialize (Htys12 et). specialize (Htys23 et).
  destruct Htys12 as [en1 en2 Hen12|]; inversion Htys23 as [? en3 Hen23|];
    subst; constructor.
  by eapply entry_stamped_trans.
Qed.

Lemma stamped_pair EVENTS0 EVENTS e et :
  stamped EVENT_NAME EVENTS0 EVENTS →
  option_Forall2 (entry_stamped (EVENT_NAME !! e) et)
    (EVENTS0 !! e ≫= (.!! et)) (EVENTS !! e ≫= (.!! et)).
Proof.
  intros Hst. specialize (Hst e).
  destruct Hst as [tys0 tys Htys|]; simpl; [apply Htys|constructor].
Qed.

Lemma pair_returns_stamped EVENTS0 EVENTS s callback_args e et :
  stamped EVENT_NAME EVENTS0 EVENTS →
  pair_returns DT_CTRL EVENT_NAME s callback_args EVENTS e et ↔
  pair_returns DT_CTRL EVENT_NAME s callback_args EVENTS0 e et.
Proof.
  intros Hst. unfold pair_returns.
  destruct (stamped_pair _ _ e et Hst) as [en0 en Hen|]; [|done].
  destruct Hen as [->|(a0 & n & -> & Hn & ->)]; [done|]. simpl.
  split; intros (a & v & [= <-] & Hv & Hnm); eauto.
Qed.

(** A visit returns exactly when the pair has what it needs. *)
Lemma resolve_returns s callback_args e et ret EVENTS :
  is_Some (EVENTS !! e ≫= (.!! et)) →
  (∃ ret' EVENTS',
     resolve DT_CTRL EVENT_NAME s callback_args e et ret EVENTS
     = (inr ret', EVENTS')) ↔
  pair_returns DT_CTRL EVENT_NAME s callback_args EVENTS e et.
Proof.
  intros [en Hen]. rewrite resolve_eq. unfold pair_returns. rewrite Hen.
  destruct (EVENTS !! e) as [tys|]; [|done]. simpl in Hen. rewrite Hen.
  destruct en as [a|f]; simpl.
  - destruct (events_prev s !! e) as [v|];
      [|split; [by intros (? & ? & ?)|by intros (? & ? & ? & ? & ?)]].
    destruct (Qle_bool _ _) eqn:Hq.
    + destruct (EVENT_NAME !! e) as [nm|].
      * split; [intros _; exists a, v; eauto|eauto].
      * split; [by intros (? & ? & ?)|].
        intros (a' & v' & [= <-] & [= <-] & Hnm).
        rewrite Hq in Hnm. by destruct (Hnm eq_refl).
    + split; [|eauto]. intros _. exists a, v. by rewrite Hq.
  - destruct (f callback_args) as [x|a];
      [split; [by intros (? & ? & ?)|by intros (? & ? & ? & _)]|].
    destruct (events_prev s !! e) as [v|];
      [|split; [by intros (? & ? & ?)|by intros (? & ? & ? & ? & ?)]].
    destruct (Qle_bool _ _) eqn:Hq.
    + destruct (EVENT_NAME !! e) as [nm|].
      * split; [intros _; exists a, v; eauto|eauto].
      * split; [by intros (? & ? & ?)|].
        intros (a' & v' & [= <-] & [= <-] & Hnm).
        rewrite Hq in Hnm. by destruct (Hnm eq_refl).
    + split; [|eauto]. intros _. exists a, v. by rewrite Hq.
Qed.

End create_alerts_more.

Section create_alerts_returns.

Variable DT_CTRL : Q.
Variable EVENT_NAME : gmap N string.

Implicit Types (EVENTS : gmap N (gmap string entry)) (s : Events).

Lemma for_event_types_returns EVENTS0 s callback_args e types ets ret EVENTS :
  stamped EVENT_NAME EVENTS0 EVENTS →
  (∀ et, et ∈ types ↔ is_Some (EVENTS0 !! e ≫= (.!! et))) →
  (∃ ret' EVENTS',
     for_event_types DT_CTRL EVENT_NAME s callback_args e types ets ret
       EVENTS = (inr ret', EVENTS')) ↔
  ∀ et, et ∈ ets →
        pair_returns DT_CTRL EVENT_NAME s callback_args EVENTS0 e et.
Proof.
  intros Hst Htypes. revert ret EVENTS Hst.
  induction ets as [|et ets IH]; intros ret EVENTS Hst.
  - split; [intros _ et Hin; by apply elem_of_nil in Hin|]. intros _.
    by exists ret, EVENTS.
  - cbn [for_event_types]. unfold mbind, M_bind. case_bool_decide as Hin.
    + assert (Hsome : is_Some (EVENTS !! e ≫= (.!! et))).
      { apply Htypes in Hin. destruct (stamped_pair _ _ _ e et Hst);
          [by eexists|by destruct Hin]. }
      pose proof (resolve_returns DT_CTRL EVENT_NAME s callback_args e et
                    ret EVENTS Hsome) as Hres.
      rewrite (pair_returns_stamped _ _ _ _ _ _ _ _ Hst) in Hres.
      pose proof (resolve_stamped DT_CTRL EVENT_NAME _ s callback_args e et
                    ret _ Hst) as Hst'.
      destruct (resolve _ _ _ _ _ _ _ _) as [[x|ret1] EVENTS1].
      * split; [by intros (? & ? & ?)|]. intros Hall.
        assert (Hp : pair_returns DT_CTRL EVENT_NAME s callback_args
                       EVENTS0 e et) by (apply Hall; left).
        apply Hres in Hp as (? & ? & ?). done.
      * rewrite (IH ret1 EVENTS1 Hst'). split.
        -- intros Hall et' [->|?]%elem_of_cons; [|by apply Hall].
           apply Hres. eauto.
        -- intros Hall et' Het'. apply Hall. by right.
    + unfold mret, M_ret. rewrite (IH ret EVENTS Hst). split.
      * intros Hall et' [->|?]%elem_of_cons; [|by apply Hall].
        unfold pair_returns. rewrite Htypes in Hin.
        destruct (EVENTS0 !! e ≫= (.!! et)); [|done].
        destruct Hin. by eexists.
      * intros Hall et' Het'. apply Hall. by right.
Qed.

Lemma for_events_returns EVENTS0 s callback_args ets es ret EVENTS :
  stamped EVENT_NAME EVENTS0 EVENTS →
  (∃ ret' EVENTS',
     for_events DT_CTRL EVENT_NAME s callback_args ets es ret EVENTS
     = (inr ret', EVENTS')) ↔
  ∀ e, e ∈ es →
       is_Some (EVENTS0 !! e) ∧
       ∀ et, et ∈ ets →
             pair_returns DT_CTRL EVENT_NAME s callback_args EVENTS0 e et.
Proof.
  revert ret EVENTS. induction es as [|e es IH]; intros ret EVENTS Hst.
  - split; [intros _ e Hin; by apply elem_of_nil in Hin|]. intros _.
    by exists ret, EVENTS.
  - cbn [for_events]. unfold mbind, M_bind, EVENTS_getitem.
    destruct (EVENTS !! e) as [tys|] eqn:He.
    + destruct (stamped_lookup _ _ _ _ _ Hst He) as (tys0 & He0 & Htys).
      assert (Htypes : ∀ et, et ∈ dom tys ↔
                             is_Some (EVENTS0 !! e ≫= (.!! et))).
      { intros et. rewrite elem_of_dom, He0. simpl. specialize (Htys et).
        destruct Htys; split; intros [? ?]; by eauto. }
      pose proof (for_event_types_returns _ s callback_args e (dom tys) ets
                    ret _ Hst Htypes) as Hinner.
      pose proof (for_event_types_stamped DT_CTRL EVENT_NAME _ s
                    callback_args e (dom tys) ets ret _ Hst) as Hst'.
      destruct (for_event_types _ _ _ _ _ _ _ _ _) as [[x|ret1] EVENTS1].
      * split; [by intros (? & ? & ?)|]. intros Hall.
        destruct (Hall e) as [_ Hp]; [left|].
        apply Hinner in Hp as (? & ? & ?). done.
      * rewrite (IH ret1 EVENTS1 Hst'). split.
        -- intros Hall e' [->|?]%elem_of_cons; [|by apply Hall].
           split; [by rewrite He0|]. apply Hinner. eauto.
        -- intros Hall e' He'. apply Hall. by right.
    + split; [by intros (? & ? & ?)|]. intros Hall.
      destruct (Hall e) as [[tys0 He0] _]; [left|].
      specialize (Hst e). rewrite He0, He in Hst. inversion Hst.
Qed.

(** X8.  [create_alerts] returns, rather than raises, exactly when every
    identifier of the active list has a catalog entry and every visited
    pair has what it needs: its callback returns on the arguments, the
    identifier has a counter and, when the alert is eligible, a name in
    [EVENT_NAME]. *)
Theorem create_alerts_returns_iff EVENTS s ets callback_args :
  (∃ ret EVENTS',
     create_alerts DT_CTRL EVENT_NAME s ets callback_args EVENTS
     = (inr ret, EVENTS')) ↔
  ∀ e, e ∈ events s →
       is_Some (EVENTS !! e) ∧
       ∀ et, et ∈ ets →
             pair_returns DT_CTRL EVENT_NAME s (default [] callback_args)
               EVENTS e et.
Proof. apply for_events_returns, stamped_refl. Qed.

End create_alerts_returns.

Section create_alerts_raises.

Variable DT_CTRL : Q.
Variable EVENT_NAME : gmap N string.

Implicit Types (EVENTS : gmap N (gmap string entry)) (s : Events).

(** *** Which exceptions *)

Lemma resolve_raises EVENTS0 s callback_args e et ret EVENTS x EVENTS' :
  stamped EVENT_NAME EVENTS0 EVENTS →
  resolve DT_CTRL EVENT_NAME s callback_args e et ret EVENTS
    = (inl x, EVENTS') →
  x = KeyError ∨
  ∃ f, EVENTS0 !! e ≫= (.!! et) = Some (Callback f) ∧
       f callback_args = inl x.
Proof.
  intros Hst. rewrite resolve_eq.
  pose proof (stamped_pair EVENT_NAME _ _ e et Hst) as Hpair.
  destruct (EVENTS !! e) as [tys|]; [|intros [= <- _]; by left].
  simpl in Hpair.
  destruct (tys !! et) as [[a|f]|]; [| |intros [= <- _]; by left].
  - destruct (events_prev s !! e); [|intros [= <- _]; by left].
    destruct (Qle_bool _ _); [|done].
    destruct (EVENT_NAME !! e); [done|intros [= <- _]; by left].
  - destruct (f callback_args) as [y|a] eqn:Hf.
    + intros [= <- _]. right. exists f. split; [|done].
      inversion Hpair as [en0 ? Hen|]; subst.
      by destruct Hen as [->|(? & ? & _ & _ & ?)].
    + destruct (events_prev s !! e); [|intros [= <- _]; by left].
      destruct (Qle_bool _ _); [|done].
      destruct (EVENT_NAME !! e); [done|intros [= <- _]; by left].
Qed.

Lemma for_event_types_raises EVENTS0 s callback_args e types ets ret EVENTS
    x EVENTS' :
  stamped EVENT_NAME EVENTS0 EVENTS →
  for_event_types DT_CTRL EVENT_NAME s callback_args e types ets ret EVENTS
    = (inl x, EVENTS') →
  x = KeyError ∨
  ∃ et f, et ∈ ets ∧ EVENTS0 !! e ≫= (.!! et) = Some (Callback f) ∧
          f callback_args = inl x.
Proof.
  revert ret EVENTS. induction ets as [|et ets IH]; intros ret EVENTS Hst;
    [done|].
  cbn [for_event_types]. unfold mbind, M_bind. case_bool_decide.
  - pose proof (resolve_stamped DT_CTRL EVENT_NAME _ s callback_args e et
                  ret _ Hst) as Hst'.
    destruct (resolve _ _ _ _ _ _ _ _) as [[y|ret1] EVENTS1] eqn:Hres.
    + intros [= <- _].
      destruct (resolve_raises _ _ _ _ _ _ _ _ _ Hst Hres)
        as [?|(f & ? & ?)]; [by left|].
      right. exists et, f. split; [left|done].
    + intros Hrest. destruct (IH _ _ Hst' Hrest) as [?|(et' & f & ? & ?)];
        [by left|].
      right. exists et', f. split; [by right|done].
  - unfold mret, M_ret. intros Hrest.
    destruct (IH _ _ Hst Hrest) as [?|(et' & f & ? & ?)]; [by left|].
    right. exists et', f. split; [by right|done].
Qed.

Lemma for_events_raises EVENTS0 s callback_args ets es ret EVENTS x EVENTS' :
  stamped EVENT_NAME EVENTS0 EVENTS →
  for_events DT_CTRL EVENT_NAME s callback_args ets es ret EVENTS
    = (inl x, EVENTS') →
  x = KeyError ∨
  ∃ e et f, e ∈ es ∧ et ∈ ets ∧
            EVENTS0 !! e ≫= (.!! et) = Some (Callback f) ∧
            f callback_args = inl x.
Proof.
  revert ret EVENTS. induction es as [|e es IH]; intros ret EVENTS Hst;
    [done|].
  cbn [for_events]. unfold mbind, M_bind, EVENTS_getitem.
  destruct (EVENTS !! e) as [tys|]; [|intros [= <- _]; by left].
  pose proof (for_event_types_stamped DT_CTRL EVENT_NAME _ s callback_args
                e (dom tys) ets ret _ Hst) as Hst'.
  destruct (for_event_types _ _ _ _ _ _ _ _ _) as [[y|ret1] EVENTS1]
    eqn:Hinner.
  - intros [= <- _].
    destruct (for_event_types_raises _ _ _ _ _ _ _ _ _ _ Hst Hinner)
      as [?|(et & f & ? & ? & ?)]; [by left|].
    right. exists e, et, f. split; [left|done].
  - intros Hrest.
    destruct (IH _ _ Hst' Hrest) as [?|(e' & et & f & ? & ?)]; [by left|].
    right. exists e', et, f. split; [by right|done].
Qed.

(** X9.  The only exceptions of [create_alerts] are [KeyError] (an
    identifier without catalog entry, counter or name) and what a callback
    of a visited pair raises on the arguments. *)
Theorem create_alerts_raises_only EVENTS s ets callback_args x EVENTS' :
  create_alerts DT_CTRL EVENT_NAME s ets callback_args EVENTS
    = (inl x, EVENTS') →
  x = KeyError ∨
  ∃ e et f, e ∈ events s ∧ et ∈ ets ∧
            EVENTS !! e ≫= (.!! et) = Some (Callback f) ∧
            f (default [] callback_args) = inl x.
Proof. apply for_events_raises, stamped_refl. Qed.

(** *** Empty list of event types *)

Lemma for_events_no_event_types s callback_args es ret EVENTS :
  for_events DT_CTRL EVENT_NAME s callback_args [] es ret EVENTS =
  if decide (Forall (λ e, is_Some (EVENTS !! e)) es)
  then (inr ret, EVENTS) else (inl KeyError, EVENTS).
Proof.
  induction es as [|e es IH].
  - by rewrite decide_True by constructor.
  - cbn [for_events for_event_types].
    unfold mbind, M_bind, EVENTS_getitem, mret, M_ret.
    destruct (EVENTS !! e) as [tys|] eqn:He.
    + rewrite IH. destruct (decide (Forall _ es)) as [Hall|Hnot].
      * rewrite decide_True; [done|]. constructor; [by rewrite He|done].
      * rewrite decide_False; [done|]. by intros [_ ?]%Forall_cons.
    + rewrite decide_False; [done|]. intros [[? Hs] _]%Forall_cons.
      congruence.
Qed.

(** X10.  With an empty list of event types, [create_alerts] returns the
    empty list and writes nothing when every active identifier has a
    catalog entry, and raises [KeyError] otherwise: the entry of every
    active identifier is indexed before the event types are looked at. *)
Theorem create_alerts_no_event_types EVENTS s callback_args :
  create_alerts DT_CTRL EVENT_NAME s [] callback_args EVENTS =
  if decide (Forall (λ e, is_Some (EVENTS !! e)) (events s))
  then (inr [], EVENTS) else (inl KeyError, EVENTS).
Proof. apply for_events_no_event_types. Qed.

End create_alerts_raises.

Section create_alerts_again.

Variable DT_CTRL : Q.
Variable EVENT_NAME : gmap N string.

Implicit Types (EVENTS : gmap N (gmap string entry)) (s : Events).

(** *** A repeated query *)

Lemma resolve_again s callback_args e et ret EVENTS ret' EVENTS' EVENTS1 :
  resolve DT_CTRL EVENT_NAME s callback_args e et ret EVENTS
    = (inr ret', EVENTS') →
  stamped EVENT_NAME EVENTS EVENTS1 →
  stamped EVENT_NAME EVENTS' EVENTS1 →
  resolve DT_CTRL EVENT_NAME s callback_args e et ret EVENTS1
    = (inr ret', EVENTS1).
Proof.
  intros Hres Hst Hst'. revert Hres. rewrite !resolve_eq.
  pose proof (stamped_pair EVENT_NAME _ _ e et Hst) as Hpair.
  pose proof (stamped_pair EVENT_NAME _ _ e et Hst') as Hpair'.
  destruct (EVENTS !! e) as [tys|] eqn:He; [|done]. simpl in Hpair.
  destruct (EVENTS1 !! e) as [tys1|] eqn:He1;
    [|destruct (tys !! et); [inversion Hpair|done]].
  simpl in Hpair, Hpair'.
  destruct (tys !! et) as [[a|f]|] eqn:Het; [| |done].
  - destruct (events_prev s !! e) as [v|]; [|done].
    destruct (Qle_bool (creation_delay a) _) eqn:Hq.
    + destruct (EVENT_NAME !! e) as [nm|] eqn:Hnm; [|done].
      intros [= <- <-]. rewrite lookup_insert_eq in Hpair'. simpl in Hpair'.
      rewrite lookup_insert_eq in Hpair'.
      inversion Hpair' as [? en1 Hen1 Heq Het1|]; subst.
      assert (en1 = Static (stamp (nm +:+ "/" +:+ et) et a)) as ->.
      { destruct Hen1 as [->|(a0 & n & [= <-] & [= <-] & ->)]; done. }
      simpl. rewrite Hq. f_equal.
      rewrite (insert_id tys1) by done. by apply insert_id.
    + intros [= <- <-]. inversion Hpair as [? en1 Hen1 Heq Het1|]; subst.
      destruct Hen1 as [->|(a0 & n & [= <-] & _ & ->)]; simpl; by rewrite Hq.
  - destruct (f callback_args) as [x|a] eqn:Hf; [done|].
    inversion Hpair as [? en1 Hen1 Heq Het1|]; subst.
    destruct Hen1 as [->|(a0 & n & [=] & _)]. rewrite Hf.
    destruct (events_prev s !! e) as [v|]; [|done].
    destruct (Qle_bool _ _); [|by intros [= <- <-]].
    destruct (EVENT_NAME !! e); [|done]. by intros [= <- <-].
Qed.

Lemma for_event_types_again s callback_args e types ets ret EVENTS ret'
    EVENTS' EVENTS1 :
  for_event_types DT_CTRL EVENT_NAME s callback_args e types ets ret EVENTS
    = (inr ret', EVENTS') →
  stamped EVENT_NAME EVENTS' EVENTS1 →
  for_event_types DT_CTRL EVENT_NAME s callback_args e types ets ret EVENTS1
    = (inr ret', EVENTS1).
Proof.
  revert ret EVENTS. induction ets as [|et ets IH]; intros ret EVENTS.
  - by intros [= <- <-] _.
  - cbn [for_event_types]. unfold mbind, M_bind. case_bool_decide.
    + destruct (resolve _ _ _ _ _ _ _ EVENTS) as [[x|ret1] EVENTSa] eqn:Hres;
        [done|].
      intros Hrest Hst'.
      pose proof (for_event_types_stamped DT_CTRL EVENT_NAME EVENTSa s
                    callback_args e types ets ret1 EVENTSa
                    (stamped_refl _ _)) as Hsta.
      rewrite Hrest in Hsta. simpl in Hsta.
      pose proof (stamped_trans _ _ _ _ Hsta Hst') as Hsta1.
      pose proof (resolve_stamped DT_CTRL EVENT_NAME EVENTS s callback_args e
                    et ret EVENTS (stamped_refl _ _)) as Hst0.
      rewrite Hres in Hst0. simpl in Hst0.
      rewrite (resolve_again _ _ _ _ _ _ _ _ _ Hres
                 (stamped_trans _ _ _ _ Hst0 Hsta1) Hsta1).
      by apply (IH ret1 EVENTSa).
    + unfold mret, M_ret. apply IH.
Qed.

Lemma for_events_again s callback_args ets es ret EVENTS ret' EVENTS'
    EVENTS1 :
  for_events DT_CTRL EVENT_NAME s callback_args ets es ret EVENTS
    = (inr ret', EVENTS') →
  stamped EVENT_NAME EVENTS' EVENTS1 →
  for_events DT_CTRL EVENT_NAME s callback_args ets es ret EVENTS1
    = (inr ret', EVENTS1).
Proof.
  revert ret EVENTS. induction es as [|e es IH]; intros ret EVENTS.
  - by intros [= <- <-] _.
  - cbn [for_events]. unfold mbind, M_bind, EVENTS_getitem.
    destruct (EVENTS !! e) as [tys|] eqn:He; [|done].
    destruct (for_event_types _ _ _ _ _ _ _ _ EVENTS)
      as [[x|ret1] EVENTSa] eqn:Hinner; [done|].
    intros Hrest Hst'.
    pose proof (for_events_stamped DT_CTRL EVENT_NAME EVENTSa s
                  callback_args ets es ret1 EVENTSa (stamped_refl _ _))
      as Hsta.
    rewrite Hrest in Hsta. simpl in Hsta.
    pose proof (stamped_trans _ _ _ _ Hsta Hst') as Hsta1.
    pose proof (for_event_types_stamped DT_CTRL EVENT_NAME EVENTS s
                  callback_args e (dom tys) ets ret EVENTS
                  (stamped_refl _ _)) as Hst0.
    rewrite Hinner in Hst0. simpl in Hst0.
    pose proof (stamped_trans _ _ _ _ Hst0 Hsta1) as Hst01.
    pose proof (stamped_get_types_dom EVENT_NAME _ _ e Hst01) as Hdom.
    unfold get_types in Hdom. rewrite He in Hdom.
    destruct (EVENTS1 !! e) as [tys1|] eqn:He1.
    + simpl in Hdom. rewrite Hdom.
      rewrite (for_event_types_again _ _ _ _ _ _ _ _ _ _ Hinner Hsta1).
      by apply (IH ret1 EVENTSa).
    + specialize (Hst01 e). rewrite He, He1 in Hst01. inversion Hst01.
Qed.

(** X11.  A query asked again answers the same and writes nothing: when
    [create_alerts] returns a list and leaves a store, the same call on
    that store returns the same list and leaves the store as it is. *)
Theorem create_alerts_again EVENTS s ets callback_args ret EVENTS' :
  create_alerts DT_CTRL EVENT_NAME s ets callback_args EVENTS
    = (inr ret, EVENTS') →
  create_alerts DT_CTRL EVENT_NAME s ets callback_args EVENTS'
    = (inr ret, EVENTS').
Proof. intros H. eapply for_events_again; [exact H|apply stamped_refl]. Qed.

(** *** The alerts of a returned list *)

Lemma length_omap_le {A B} (f : A → option B) (l : list A) :
  (length (omap f l) ≤ length l)%nat.
Proof.
  induction l as [|x l IH]; [done|]. cbn. destruct (f x); simpl; lia.
Qed.

Lemma length_bind_le {A B} (f : A → list B) (l : list A) (n : nat) :
  (∀ x, length (f x) ≤ n)%nat → (length (l ≫= f) ≤ length l * n)%nat.
Proof.
  intros Hf. induction l as [|x l IH]; [done|]. cbn.
  rewrite length_app. specialize (Hf x). lia.
Qed.

(** X12.  Whenever [create_alerts] returns, the list has at most one
    alert per pair of an active identifier and a requested event type, and
    every alert in it belongs to such a pair [(e, et)]: it is stamped with
    [alert_type = EVENT_NAME[e] + "/" + et] and [event_type = et], the
    entry of [e] has the type [et], and its creation delay has elapsed,
    [DT_CTRL * (events_prev[e] + 1) >= creation_delay]. *)
Theorem returned_alerts_stamped_and_eligible EVENTS s ets callback_args ret
    EVENTS' :
  create_alerts DT_CTRL EVENT_NAME s ets callback_args EVENTS
    = (inr ret, EVENTS') →
  length (contents EVENTS' ret) = length ret ∧
  (length ret ≤ length (events s) * length ets)%nat ∧
  ∀ a, a ∈ contents EVENTS' ret →
       ∃ e et nm v,
         e ∈ events s ∧ et ∈ ets ∧
         is_Some (EVENTS !! e ≫= (.!! et)) ∧
         EVENT_NAME !! e = Some nm ∧
         alert_type a = nm +:+ "/" +:+ et ∧
         event_type a = Some et ∧
         events_prev s !! e = Some v ∧
         (creation_delay a <= DT_CTRL * inject_Z (v + 1))%Q.
Proof.
  intros H.
  assert (Hh : Forall2 (ref_holds EVENT_NAME EVENTS') ret
                 (expected_alerts DT_CTRL EVENT_NAME s ets
                    (default [] callback_args) EVENTS)).
  { exact (for_events_ok DT_CTRL EVENT_NAME EVENTS _ _ _ _ _ _ _ _ [] H
             (stamped_refl _ _) (List.Forall2_nil _)). }
  pose proof (ref_holds_contents _ _ _ _ Hh) as Hc.
  pose proof (Forall2_length _ _ _ Hh) as Hlen.
  split; [by rewrite Hc|]. split.
  - rewrite Hlen. apply length_bind_le. intros e. apply length_omap_le.
  - intros a. rewrite Hc. unfold expected_alerts.
    intros (e & (et & Het & Ha)%list_elem_of_omap & He)%list_elem_of_bind.
    revert Ha. unfold pair_alert.
    destruct (EVENTS !! e ≫= (.!! et)) as [en|] eqn:Hen; [|done]. simpl.
    destruct (entry_alert en _) as [b|]; [|done]. simpl.
    destruct (events_prev s !! e) as [v|] eqn:Hv; [|done]. simpl.
    destruct (Qle_bool _ _) eqn:Hq; [|done].
    destruct (EVENT_NAME !! e) as [nm|] eqn:Hnm; [|done]. simpl.
    intros [= <-]. exists e, et, nm, v. simpl.
    apply Qle_bool_iff in Hq. split_and!; eauto.
Qed.

(** X13.  An alert is returned only for an event type that [any] reports:
    whenever [create_alerts] returns, every alert of the list carries in
    [event_type] a requested type for which [any] answers true. *)
Theorem returned_alert_type_is_active EVENTS s ets callback_args ret EVENTS'
    a :
  create_alerts DT_CTRL EVENT_NAME s ets callback_args EVENTS
    = (inr ret, EVENTS') →
  a ∈ contents EVENTS' ret →
  ∃ et, event_type a = Some et ∧ et ∈ ets ∧ any EVENTS s et = true.
Proof.
  intros H Ha.
  assert (Hh : Forall2 (ref_holds EVENT_NAME EVENTS') ret
                 (expected_alerts DT_CTRL EVENT_NAME s ets
                    (default [] callback_args) EVENTS)).
  { exact (for_events_ok DT_CTRL EVENT_NAME EVENTS _ _ _ _ _ _ _ _ [] H
             (stamped_refl _ _) (List.Forall2_nil _)). }
  rewrite (ref_holds_contents _ _ _ _ Hh) in Ha. unfold expected_alerts in Ha.
  apply list_elem_of_bind in Ha
    as (e & (et & Het & Hp)%list_elem_of_omap & He).
  revert Hp. unfold pair_alert.
  destruct (EVENTS !! e ≫= (.!! et)) as [en|] eqn:Hen; [|done]. simpl.
  destruct (entry_alert en _) as [b|]; [|done]. simpl.
  destruct (events_prev s !! e) as [v|]; [|done]. simpl.
  destruct (Qle_bool _ _); [|done].
  destruct (EVENT_NAME !! e) as [nm|]; [|done]. simpl.
  intros [= <-]. exists et. split; [done|]. split; [done|].
  unfold any. apply any_loop_true. exists e. split; [done|].
  apply elem_of_dom_get_types.
  destruct (EVENTS !! e) as [tys|]; [|done]. simpl in Hen. eauto.
Qed.

End create_alerts_again.

(** ** The further properties on the excerpt *)

(** The instance of [create_alerts_raises_only] for [wrongCarMode], whose
    [noEntry] alert is built by a callback of three arguments: without
    [callback_args] the callback raises [TypeError]. *)
Lemma create_alerts_raises_only_witness :
  create_alerts DT_CTRL_100Hz EVENT_NAME_excerpt
    (push [EventName.wrongCarMode] (Events_init EVENTS_excerpt))
    [ET.NO_ENTRY] None EVENTS_excerpt = (inl TypeError, EVENTS_excerpt) ∧
  (TypeError = KeyError ∨
   ∃ e et f,
     e ∈ events (push [EventName.wrongCarMode] (Events_init EVENTS_excerpt)) ∧
     et ∈ [ET.NO_ENTRY] ∧
     EVENTS_excerpt !! e ≫= (.!! et) = Some (Callback f) ∧
     f (default [] None) = inl TypeError).
Proof.
  assert (H : create_alerts DT_CTRL_100Hz EVENT_NAME_excerpt
                (push [EventName.wrongCarMode] (Events_init EVENTS_excerpt))
                [ET.NO_ENTRY] None EVENTS_excerpt
              = (inl TypeError, EVENTS_excerpt))
    by reflexivity.
  split; [exact H|].
  exact (create_alerts_raises_only DT_CTRL_100Hz EVENT_NAME_excerpt
           EVENTS_excerpt _ _ None TypeError EVENTS_excerpt H).
Defined.

(** The instance of [create_alerts_again] for [startupOneplus]. *)
Lemma create_alerts_again_witness :
  ∃ ret EVENTS',
    create_alerts DT_CTRL_100Hz EVENT_NAME_excerpt
      (push [EventName.startupOneplus] (Events_init EVENTS_excerpt))
      [ET.PERMANENT] None EVENTS_excerpt = (inr ret, EVENTS') ∧
    EVENTS' ≠ EVENTS_excerpt ∧
    create_alerts DT_CTRL_100Hz EVENT_NAME_excerpt
      (push [EventName.startupOneplus] (Events_init EVENTS_excerpt))
      [ET.PERMANENT] None EVENTS' = (inr ret, EVENTS').
Proof.
  set (s := push [EventName.startupOneplus] (Events_init EVENTS_excerpt)).
  set (o := create_alerts DT_CTRL_100Hz EVENT_NAME_excerpt s [ET.PERMANENT]
              None EVENTS_excerpt).
  set (r := [InCatalog EventName.startupOneplus ET.PERMANENT]).
  assert (Hr : o.1 = inr r) by (vm_compute; reflexivity).
  assert (H : o = (inr r, o.2)) by (rewrite <- Hr; apply surjective_pairing).
  exists r, o.2. split; [exact H|]. split.
  - intros Heq.
    apply (f_equal (λ EV, alert_type <$>
             deref EV (InCatalog EventName.startupOneplus ET.PERMANENT)))
      in Heq.
    vm_compute in Heq. discriminate Heq.
  - exact (create_alerts_again DT_CTRL_100Hz EVENT_NAME_excerpt
             EVENTS_excerpt s [ET.PERMANENT] None r o.2 H).
Defined.

(** The instance of [returned_alerts_stamped_and_eligible] for
    [reverseGear] with a duplicate push, queried for three of its types on
    its first tick: the [permanent] alert, whose creation delay is [0.5],
    is not returned. *)
Lemma returned_alerts_stamped_and_eligible_witness :
  ∃ s ret EVENTS',
    s = push [EventName.reverseGear; EventName.reverseGear]
          (Events_init EVENTS_excerpt) ∧
    create_alerts DT_CTRL_100Hz EVENT_NAME_excerpt s
      [ET.PERMANENT; ET.SOFT_DISABLE; ET.NO_ENTRY] None EVENTS_excerpt
    = (inr ret, EVENTS') ∧
    length ret = 4%nat ∧
    (length ret ≤ length (events s) * 3)%nat ∧
    ∀ a, a ∈ contents EVENTS' ret →
         ∃ e et nm v,
           e ∈ events s ∧ et ∈ [ET.PERMANENT; ET.SOFT_DISABLE; ET.NO_ENTRY] ∧
           is_Some (EVENTS_excerpt !! e ≫= (.!! et)) ∧
           EVENT_NAME_excerpt !! e = Some nm ∧
           alert_type a = nm +:+ "/" +:+ et ∧
           event_type a = Some et ∧
           events_prev s !! e = Some v ∧
           (creation_delay a <= DT_CTRL_100Hz * inject_Z (v + 1))%Q.
Proof.
  set (s := push [EventName.reverseGear; EventName.reverseGear]
              (Events_init EVENTS_excerpt)).
  set (o := create_alerts DT_CTRL_100Hz EVENT_NAME_excerpt s
              [ET.PERMANENT; ET.SOFT_DISABLE; ET.NO_ENTRY] None
              EVENTS_excerpt).
  set (r := [InCatalog EventName.reverseGear ET.SOFT_DISABLE;
             InCatalog EventName.reverseGear ET.NO_ENTRY;
             InCatalog EventName.reverseGear ET.SOFT_DISABLE;
             InCatalog EventName.reverseGear ET.NO_ENTRY]).
  assert (Hr : o.1 = inr r) by (vm_compute; reflexivity).
  assert (H : o = (inr r, o.2)) by (rewrite <- Hr; apply surjective_pairing).
  exists s, r, o.2. split; [reflexivity|]. split; [exact H|].
  split; [reflexivity|].
  destruct (returned_alerts_stamped_and_eligible DT_CTRL_100Hz
              EVENT_NAME_excerpt EVENTS_excerpt s
              [ET.PERMANENT; ET.SOFT_DISABLE; ET.NO_ENTRY] None r o.2 H)
    as (_ & Hlen & Hall).
  split; [exact Hlen|exact Hall].
Defined.

(** The instance of [returned_alert_type_is_active] for [pcmEnable]. *)
Lemma returned_alert_type_is_active_witness :
  ∃ s ret EVENTS' a,
    s = push [EventName.pcmEnable] (Events_init EVENTS_excerpt) ∧
    create_alerts DT_CTRL_100Hz EVENT_NAME_excerpt s
      [ET.WARNING; ET.ENABLE] None EVENTS_excerpt = (inr ret, EVENTS') ∧
    a ∈ contents EVENTS' ret ∧
    ∃ et, event_type a = Some et ∧ et ∈ [ET.WARNING; ET.ENABLE] ∧
          any EVENTS_excerpt s et = true.
Proof.
  set (s := push [EventName.pcmEnable] (Events_init EVENTS_excerpt)).
  set (o := create_alerts DT_CTRL_100Hz EVENT_NAME_excerpt s
              [ET.WARNING; ET.ENABLE] None EVENTS_excerpt).
  set (r := [InCatalog EventName.pcmEnable ET.ENABLE]).
  set (a := stamp "pcmEnable/enable" ET.ENABLE (EngagementAlert chimeEngage)).
  assert (Hr : o.1 = inr r) by (vm_compute; reflexivity).
  assert (H : o = (inr r, o.2)) by (rewrite <- Hr; apply surjective_pairing).
  assert (Hc : contents o.2 r = [a]) by (vm_compute; reflexivity).
  assert (Ha : a ∈ contents o.2 r) by (rewrite Hc; left).
  exists s, r, o.2, a. split; [reflexivity|]. split; [exact H|].
  split; [exact Ha|].
  exact (returned_alert_type_is_active DT_CTRL_100Hz EVENT_NAME_excerpt
           EVENTS_excerpt s [ET.WARNING; ET.ENABLE] None r o.2 a H Ha).
Defined.

(** ** [add] against [any] and [to_msg] *)

Lemma any_loop_app (EVENTS : gmap N (gmap string entry)) et es1 es2 :
  any_loop EVENTS et (es1 ++ es2)
  = any_loop EVENTS et es1 || any_loop EVENTS et es2.
Proof.
  induction es1 as [|e es1 IH]; [done|]. simpl.
  by case_bool_decide.
Qed.

(** X14.  [add] can only turn answers of [any] to true: after
    [add(e, static)] the answer for an event type is the answer before, or
    true when the catalog entry of [e] has the type; adding an identifier
    without catalog entry changes no answer. *)
Theorem any_add (EVENTS : gmap N (gmap string entry)) (s : Events) (e : N)
    (static : bool) (et : string) :
  any EVENTS (add e static s) et
  = any EVENTS s et || bool_decide (et ∈ dom (get_types EVENTS e)) ∧
  (EVENTS !! e = None → any EVENTS (add e static s) et = any EVENTS s et).
Proof.
  assert (Hadd : any EVENTS (add e static s) et
                 = any EVENTS s et
                   || bool_decide (et ∈ dom (get_types EVENTS e))).
  { unfold any. simpl. rewrite any_loop_app. simpl.
    by case_bool_decide. }
  split; [done|]. intros He. rewrite Hadd.
  rewrite bool_decide_eq_false_2; [by rewrite orb_false_r|].
  unfold get_types. rewrite He. simpl. set_solver.
Qed.

Lemma to_msg_loop_app (EVENTS : gmap N (gmap string entry)) es1 es2 ret :
  to_msg_loop EVENTS (es1 ++ es2) ret =
  match to_msg_loop EVENTS es1 ret with
  | inl x => inl x
  | inr ret1 => to_msg_loop EVENTS es2 ret1
  end.
Proof.
  revert ret. induction es1 as [|e es1 IH]; intros ret; [done|]. simpl.
  destruct (to_msg_event EVENTS e); [done|]. apply IH.
Qed.

(** X15.  [to_msg] after [add(e, static)] is [to_msg] before with one
    record for [e] appended; when either raises, so does the whole, the
    earlier identifiers first. *)
Theorem to_msg_add (EVENTS : gmap N (gmap string entry)) (s : Events)
    (e : N) (static : bool) :
  to_msg EVENTS (add e static s) =
  match to_msg EVENTS s with
  | inl x => inl x
  | inr msgs =>
      match to_msg_event EVENTS e with
      | inl x => inl x
      | inr m => inr (msgs ++ [m])
      end
  end.
Proof.
  unfold to_msg. simpl. rewrite to_msg_loop_app.
  destruct (to_msg_loop EVENTS (events s) []) as [x|msgs]; [done|]. simpl.
  by destruct (to_msg_event EVENTS e).
Qed.

(** * Writes and debounce, in general *)

Section create_alerts_writes.

Variable DT_CTRL : Q.
Variable EVENT_NAME : gmap N string.

Implicit Types (EVENTS : gmap N (gmap string entry)) (s : Events).






End create_alerts_writes.

(** ** Debounce with other identifiers active *)

(** [+:+] cancels on the right. *)
Lemma string_length_app (s1 s2 : string) :
  String.length (s1 +:+ s2) = (String.length s1 + String.length s2)%nat.
Proof. induction s1 as [|c s1 IH]; simpl; [done|]. by rewrite IH. Qed.

Lemma string_app_inj_r (s1 s2 t : string) : s1 +:+ t = s2 +:+ t → s1 = s2.
Proof.
  revert s2. induction s1 as [|c1 s1 IH]; intros [|c2 s2] Heq.
  - done.
  - apply (f_equal String.length) in Heq.
    rewrite !string_length_app in Heq. simpl in Heq. lia.
  - apply (f_equal String.length) in Heq.
    rewrite !string_length_app in Heq. simpl in Heq. lia.
  - change (String c1 (s1 +:+ t) = String c2 (s2 +:+ t)) in Heq.
    injection Heq as -> Heq. f_equal. by apply IH.
Qed.

(** ** The test in binary64 *)

Lemma tests_agree_from_spec n v0 d64 d v :
  tests_agree_from n v0 d64 d = true → v0 ≤ v < v0 + Z.of_nat n →
  eligible_binary64 0.01 d64 v
  = Qle_bool d (DT_CTRL_100Hz * inject_Z (v + 1)).
Proof.
  revert v0. induction n as [|n IH]; intros v0 Hall Hv; [lia|].
  cbn [tests_agree_from] in Hall.
  apply andb_prop in Hall as [Hhere Hrest].
  destruct (decide (v = v0)) as [->|Hne].
  - by apply Bool.eqb_prop.
  - apply (IH (v0 + 1)); [done|lia].
Qed.

(** At 100 Hz the test of line 81 has the same outcome in binary64 and on
    the rationals for every creation delay of the source and every counter
    below 40000, although [0.01] is not a binary64 number. *)
Lemma tests_agree_creation_delays :
  Forall (λ p : float * Q, tests_agree_from (Z.to_nat 40000) 0 p.1 p.2 = true)
    creation_delays.
Proof.
  unfold creation_delays.
  repeat (apply Forall_cons_2; [vm_compute; reflexivity|]).
  apply Forall_nil_2.
Qed.

Lemma eligible_binary64_creation_delays d64 d v :
  (d64, d) ∈ creation_delays → 0 ≤ v < 40000 →
  eligible_binary64 0.01 d64 v
  = Qle_bool d (DT_CTRL_100Hz * inject_Z (v + 1)).
Proof.
  intros Hin Hv. apply (tests_agree_from_spec (Z.to_nat 40000) 0);
    [|rewrite Z2Nat.id; lia].
  pose proof tests_agree_creation_delays as Hall.
  rewrite Forall_forall in Hall. exact (Hall _ Hin).
Qed.

Section debounce.

Variable DT_CTRL : Q.
Variable EVENT_NAME : gmap N string.

Implicit Types (EVENTS : gmap N (gmap string entry)) (s : Events).

Lemma after_queries_snoc ticks t (st : Events * gmap N (gmap string entry)) :
  after_queries DT_CTRL EVENT_NAME (ticks ++ [t]) st =
  (control_tick DT_CTRL EVENT_NAME t.1.1 t.1.2 t.2
     (after_queries DT_CTRL EVENT_NAME ticks st)).2.
Proof. unfold after_queries. by rewrite foldl_app. Qed.

Lemma after_queries_inv EVENTS id ticks :
  is_Some (EVENTS !! id) →
  Forall (λ t : list N * list string * option (list PyArg), id ∈ t.1.1)
    ticks →
  let st := after_queries DT_CTRL EVENT_NAME ticks
              (Events_init EVENTS, EVENTS) in
  static_events st.1 = [] ∧
  (id ∈ events st.1 ↔ ticks ≠ []) ∧
  events_prev st.1 !! id = Some (Z.of_nat (pred (length ticks))) ∧
  stamped EVENT_NAME EVENTS st.2.
Proof.
  intros [tys Hid]. induction ticks as [|t ticks IH] using rev_ind;
    intros Hall.
  - simpl. split; [done|]. split; [|split].
    + split; [by intros ?%elem_of_nil|intros H; exfalso; by apply H].
    + by rewrite lookup_fmap, Hid.
    + apply stamped_refl.
  - apply Forall_app in Hall as [Hall Ht].
    apply Forall_cons in Ht as [Ht _].
    destruct (IH Hall) as (Hst & Hev & Hprev & Hstore).
    rewrite after_queries_snoc, control_tick_state. cbn [fst snd].
    set (st := after_queries _ _ _ _) in *.
    split; [by rewrite static_events_push|]. split; [|split].
    + split; [intros _; by destruct ticks|]. intros _.
      rewrite events_push. apply elem_of_app. by right.
    + rewrite events_prev_push, events_prev_clear, Hprev. simpl.
      rewrite length_app. simpl. destruct ticks as [|t0 ticks].
      * rewrite bool_decide_eq_false_2; [done|]. rewrite Hev. tauto.
      * rewrite bool_decide_eq_true_2 by (by apply Hev).
        f_equal. cbn [length Init.Nat.pred]. lia.
    + unfold create_alerts. apply for_events_stamped. exact Hstore.
Qed.

(** C2, as the code has it.  Let the pair [(id, et)] of the catalog
    resolve to an alert with creation delay [D], let [id] have a name that
    no other identifier has, and let [id] be pushed on every tick from the
    first on, whatever else is pushed and whatever is queried on the ticks
    before.  On tick [k], counting from 1, the counter of [id] is [k - 1],
    and a query for event types that include [et] returns exactly when
    every visited pair has what it needs.  When it returns, the list holds
    the stamped alert of the pair if the test [DT_CTRL * k >= D] passes,
    and no alert stamped for the pair if it does not, whatever other alerts
    it holds.  At 100 Hz and for the creation delays 0, 0.5, 1 and 300 of
    the source, the test passes exactly from tick [ceil(D / DT_CTRL)] on,
    so no alert of the pair is returned on the first
    [ceil(D / DT_CTRL) - 1] ticks, and up to tick 40000 the binary64 test
    of the code has the outcome of the rational one. *)
Theorem debounce_current_tick (EVENTS : gmap N (gmap string entry))
    (id : N) (et : string) (en : entry) (a : Alert) (nm : string)
    (ticks : list (list N * list string * option (list PyArg)))
    (ids : list N) (ets : list string)
    (callback_args : option (list PyArg)) :
  EVENTS !! id ≫= (.!! et) = Some en →
  entry_alert en (default [] callback_args) = Some a →
  EVENT_NAME !! id = Some nm →
  (∀ e, EVENT_NAME !! e = Some nm → e = id) →
  Forall (λ t : list N * list string * option (list PyArg), id ∈ t.1.1)
    ticks →
  id ∈ ids → et ∈ ets →
  let k := Z.of_nat (S (length ticks)) in
  let st := after_queries DT_CTRL EVENT_NAME ticks
              (Events_init EVENTS, EVENTS) in
  let s := push ids (clear st.1) in
  let alert := stamp (nm +:+ "/" +:+ et) et a in
  let passes := Qle_bool (creation_delay a) (DT_CTRL * inject_Z k) in
  events_prev s !! id = Some (k - 1) ∧
  ((∃ ret EVENTS',
      create_alerts DT_CTRL EVENT_NAME s ets callback_args st.2
      = (inr ret, EVENTS')) ↔
   ∀ e, e ∈ ids →
        is_Some (EVENTS !! e) ∧
        ∀ et', et' ∈ ets →
               pair_returns DT_CTRL EVENT_NAME s (default [] callback_args)
                 EVENTS e et') ∧
  (∀ ret EVENTS',
     create_alerts DT_CTRL EVENT_NAME s ets callback_args st.2
     = (inr ret, EVENTS') →
     if passes then alert ∈ contents EVENTS' ret
     else ∀ b, b ∈ contents EVENTS' ret →
               ¬ (alert_type b = nm +:+ "/" +:+ et ∧
                  event_type b = Some et)) ∧
  (DT_CTRL = DT_CTRL_100Hz →
   ∀ d64, (d64, creation_delay a) ∈ creation_delays →
          (passes = true ↔ Qceiling (creation_delay a / DT_CTRL) ≤ k) ∧
          (k ≤ 40000 → eligible_binary64 0.01 d64 (k - 1) = passes)).
Proof.
  intros Hen Ha Hnm Hinj Hall Hid Het k st s alert passes.
  assert (HidS : is_Some (EVENTS !! id)).
  { destruct (EVENTS !! id); [by eexists|done]. }
  destruct (after_queries_inv EVENTS id ticks HidS Hall)
    as (Hst & Hev & Hprev & Hstore).
  fold st in Hst, Hev, Hprev, Hstore.
  assert (Hevs : events s = ids).
  { unfold s. rewrite events_push. simpl. by rewrite Hst. }
  assert (Hv : events_prev s !! id = Some (k - 1)).
  { unfold s, k. rewrite events_prev_push, events_prev_clear, Hprev. simpl.
    destruct ticks as [|t0 ticks].
    - rewrite bool_decide_eq_false_2; [done|]. rewrite Hev. tauto.
    - rewrite bool_decide_eq_true_2 by (by apply Hev).
      f_equal. simpl. lia. }
  assert (Hpair : pair_alert DT_CTRL EVENT_NAME s (default [] callback_args)
                    st.2 id et
                  = if passes then Some alert else None).
  { rewrite (pair_alert_stamped _ _ _ _ _ _ _ _ Hstore).
    rewrite (pair_alert_eq _ _ _ _ _ _ _ _ _ _ Hen Ha Hv), Hnm. simpl.
    unfold passes. by replace (k - 1 + 1) with k by lia. }
  split; [done|]. split; [|split].
  - unfold create_alerts. rewrite <- Hevs.
    by apply for_events_returns.
  - intros ret EVENTS' Hret.
    apply create_alerts_contents in Hret as [-> _].
    unfold expected_alerts. rewrite Hevs.
    destruct passes eqn:Hp.
    + apply list_elem_of_bind. exists id. split; [|done].
      apply list_elem_of_omap. by exists et.
    + intros b (e' & (et' & Het' & Hb)%list_elem_of_omap & He')
        %list_elem_of_bind [Hty Hety].
      assert (et' = et ∧ e' = id) as [-> ->].
      { revert Hb. unfold pair_alert.
        destruct (st.2 !! e' ≫= (.!! et')) as [en'|]; [|done]. simpl.
        destruct (entry_alert en' _) as [b'|]; [|done]. simpl.
        destruct (events_prev s !! e') as [v'|]; [|done]. simpl.
        destruct (Qle_bool (creation_delay b') _); [|done].
        destruct (EVENT_NAME !! e') as [nm'|] eqn:Hnm'; [|done]. simpl.
        intros [= <-]. simpl in Hty, Hety. injection Hety as ->.
        split; [done|]. apply Hinj. rewrite Hnm'. f_equal.
        by apply string_app_inj_r in Hty. }
      congruence.
  - intros HT d64 Hd. split.
    + unfold passes. rewrite HT. by apply eligible_from_ceiling.
    + intros Hk. unfold passes.
      rewrite (eligible_binary64_creation_delays _ _ (k - 1) Hd) by lia.
      rewrite HT. by replace (k - 1 + 1) with k by lia.
Qed.

End debounce.

(** The instance of [debounce_current_tick] for [gasPressed] and
    [preEnable], whose alert has [creation_delay = 1.], at 100 Hz.  On 99
    ticks [startupOneplus] and [gasPressed] are active and [permanent] is
    queried; on tick 100 [reverseGear] and [gasPressed] are active and
    [permanent] and [preEnable] are queried.  The counter of [gasPressed]
    is 99 and the query returns the alert of [gasPressed] alone, the one
    of [reverseGear] being withheld; [ceil(D / DT_CTRL)] is 100 and the
    binary64 test passes as well. *)
Lemma debounce_current_tick_witness :
  let ticks :=
    replicate 99 ([EventName.startupOneplus; EventName.gasPressed],
                  [ET.PERMANENT], None) in
  let ids := [EventName.reverseGear; EventName.gasPressed] in
  let ets := [ET.PERMANENT; ET.PRE_ENABLE] in
  let st := after_queries DT_CTRL_100Hz EVENT_NAME_excerpt ticks
              (Events_init EVENTS_excerpt, EVENTS_excerpt) in
  let s := push ids (clear st.1) in
  ∃ a,
    EVENTS_excerpt !! EventName.gasPressed ≫= (.!! ET.PRE_ENABLE)
      = Some (Static a) ∧
    EVENT_NAME_excerpt !! EventName.gasPressed = Some "gasPressed" ∧
    (∀ e, EVENT_NAME_excerpt !! e = Some "gasPressed" →
          e = EventName.gasPressed) ∧
    Forall (λ t : list N * list string * option (list PyArg),
              EventName.gasPressed ∈ t.1.1) ticks ∧
    events_prev s !! EventName.gasPressed = Some 99 ∧
    (create_alerts DT_CTRL_100Hz EVENT_NAME_excerpt s ets None st.2).1
      = inr [InCatalog EventName.gasPressed ET.PRE_ENABLE] ∧
    (∀ ret EVENTS',
       create_alerts DT_CTRL_100Hz EVENT_NAME_excerpt s ets None st.2
       = (inr ret, EVENTS') →
       stamp ("gasPressed" +:+ "/" +:+ ET.PRE_ENABLE) ET.PRE_ENABLE a
       ∈ contents EVENTS' ret) ∧
    Qceiling (creation_delay a / DT_CTRL_100Hz) = 100 ∧
    eligible_binary64 0.01 1 99 = true.
Proof.
  intros ticks ids ets st s.
  assert (Hnm : EVENT_NAME_excerpt !! EventName.gasPressed
                = Some "gasPressed") by reflexivity.
  assert (Hinj : ∀ e, EVENT_NAME_excerpt !! e = Some "gasPressed" →
                      e = EventName.gasPressed).
  { intros e H. apply elem_of_list_to_map_2 in H.
    repeat (apply elem_of_cons in H as [H|H]);
      [..|by apply elem_of_nil in H]; by simplify_eq. }
  assert (Hall : Forall (λ t : list N * list string * option (list PyArg),
                           EventName.gasPressed ∈ t.1.1) ticks).
  { apply Forall_replicate. apply elem_of_cons. right.
    apply elem_of_cons. by left. }
  assert (Hid : EventName.gasPressed ∈ ids).
  { apply elem_of_cons. right. apply elem_of_cons. by left. }
  assert (Het : ET.PRE_ENABLE ∈ ets).
  { apply elem_of_cons. right. apply elem_of_cons. by left. }
  destruct (EVENTS_excerpt !! EventName.gasPressed ≫= (.!! ET.PRE_ENABLE))
    as [[a|f]|] eqn:Hen; [|vm_compute in Hen; discriminate Hen..].
  assert (Hd : creation_delay a = 1%Q).
  { vm_compute in Hen. by injection Hen as <-. }
  destruct (debounce_current_tick DT_CTRL_100Hz EVENT_NAME_excerpt
              EVENTS_excerpt EventName.gasPressed ET.PRE_ENABLE (Static a) a
              "gasPressed" ticks ids ets None Hen eq_refl Hnm Hinj Hall Hid
              Het) as (Hprev & _ & Hret & Hclosed).
  exists a. split; [reflexivity|]. split; [exact Hnm|].
  split; [exact Hinj|]. split; [exact Hall|]. split; [exact Hprev|].
  split; [vm_compute; reflexivity|]. split; [|split].
  - intros ret EVENTS' H. apply Hret in H. rewrite Hd in H. exact H.
  - rewrite Hd. reflexivity.
  - reflexivity.
Defined.
